(** * Schedule versioning and diffing of pretalx

    A shallow embedding of [pretalx/schedule/models/schedule.py],
    [pretalx/schedule/selectors.py] and [pretalx/schedule/actions.py].

    The database is an explicit [Store]: two tables (schedules and talk
    slots) kept as lists in table order, together with the audit log, the
    mail queue and the queue of export jobs.  Query sets are lists, Python
    sets are [gset]s, dictionaries are [gmap]s, and code that can raise runs
    in a small error monad.  The names a function takes from its module
    are looked up in the namespace the module's import statements and
    definitions give it. *)

From Stdlib Require Import ZArith String List Lia Bool.
From stdpp Require Import base decidable option list gmap sets strings sorting.

Local Open Scope string_scope.
Local Open Scope list_scope.
Local Open Scope Z_scope.

(** ** Exceptions *)

(** The exception classes the code raises or suppresses, and the one the
    specification names. *)
Inductive ExcClass :=
| Exception
| AttributeError
| NameError
| ImportError
| IntegrityError
| DatabaseError
| DoesNotExist
| ValidationError.

#[global] Instance ExcClass_eq_dec : EqDecision ExcClass.
Proof. solve_decision. Defined.

Record PyExc := { exc_class : ExcClass; exc_msg : string }.

Inductive Result (A : Type) :=
| Ok (a : A)
| Raise (e : PyExc).
Arguments Ok {A} a.
Arguments Raise {A} e.

#[global] Instance Result_ret : MRet Result := λ A a, Ok a.
#[global] Instance Result_bind : MBind Result := λ A B f m,
  match m with
  | Ok a => f a
  | Raise e => Raise e
  end.

(** [x.attr] where [x] may be [None]. *)
Definition getattr_of {A} (x : option A) : Result A :=
  match x with
  | Some a => Ok a
  | None => Raise {| exc_class := AttributeError;
                     exc_msg := "'NoneType' object has no attribute" |}
  end.

(** A [for] loop whose body may raise, threading the loop's variables. *)
Fixpoint for_each {A S} (body : S → A → Result S) (l : list A) (s : S)
  : Result S :=
  match l with
  | [] => Ok s
  | x :: l' => s' ← body s x; for_each body l' s'
  end.

(** ** Module namespaces *)

(** The names a module binds at its top level: the names it imports and
    the functions it defines.  [selectors.py] has no import statement;
    [actions.py] has five. *)
Definition selectors_globals : list string :=
  ["speakers_with_changed_slots"; "_handle_submission_move";
   "compare_schedule_with_predecessor"].

Definition actions_globals : list string :=
  ["transaction"; "export_schedule_html"; "now"; "TalkSlot"; "QueuedMail";
   "freeze_schedule"; "create_release_notifications"].

(** The evaluation of a name that is not local to the function and not a
    builtin: it is looked up in the module's namespace when the expression
    is reached, and the lookup of a name the module does not bind raises. *)
Definition global_name (globals : list string) (name : string) : Result unit :=
  if decide (name ∈ globals) then Ok ()
  else Raise {| exc_class := NameError;
                exc_msg := "name '" ++ name ++ "' is not defined" |}.

(** [from module import name], where [module_globals] is the namespace of
    [module].  The interpreter adds the path of the module's file to the
    message. *)
Definition import_from (module_globals : list string) (module name : string)
  : Result unit :=
  if decide (name ∈ module_globals) then Ok ()
  else Raise {| exc_class := ImportError;
                exc_msg := "cannot import name '" ++ name ++ "' from '"
                           ++ module ++ "'" |}.

(** ** Data model *)

(** Modelled from the spec: [SubmissionStates] lives in
    [pretalx/submission/models], which is not among the sources; the
    specification asks for an enumeration "including at least CONFIRMED and
    DELETED".  Every other state is kept under its name. *)
Inductive SubmissionStates :=
| CONFIRMED
| DELETED
| OtherState (name : string).

#[global] Instance SubmissionStates_eq_dec : EqDecision SubmissionStates.
Proof. solve_decision. Defined.

Record Event := {
  event_id : Z;
  timezone : string;
  export_html_on_schedule_release : bool;
}.

Record Submission := {
  submission_pk : Z;
  state : SubmissionStates;
  speakers : gset Z;
}.

Record Room := {
  room_pk : Z;
  room_name : string;
  speaker_info : string;
}.

(** A row of the schedule table, [class Schedule]. *)
Record Schedule := {
  pk : Z;
  event : Event;
  version : option string;
  published : option Z;
}.

(** A talk slot; [slot_id] is [None] for an object that was never saved. *)
Record TalkSlot := {
  slot_id : option Z;
  schedule_id : Z;
  submission : Submission;
  room : option Room;
  start : option Z;
  end_ : option Z;
  is_visible : bool;
}.

#[global] Instance Event_eq_dec : EqDecision Event.
Proof. solve_decision. Defined.
#[global] Instance Submission_eq_dec : EqDecision Submission.
Proof. solve_decision. Defined.
#[global] Instance Room_eq_dec : EqDecision Room.
Proof. solve_decision. Defined.
#[global] Instance Schedule_eq_dec : EqDecision Schedule.
Proof. solve_decision. Defined.
#[global] Instance TalkSlot_eq_dec : EqDecision TalkSlot.
Proof. solve_decision. Defined.

(** An aware datetime: the instant and the zone it is shown in. *)
Record LocalTime := { instant : Z; tzinfo : string }.

Definition astimezone (tz : string) (t : Z) : LocalTime :=
  {| instant := t; tzinfo := tz |}.

(** The dictionary appended to [moved] in [_handle_submission_move]. *)
Record MovedTalk := {
  moved_submission : Submission;
  old_start : LocalTime;
  new_start : LocalTime;
  old_room : string;
  new_room : string;
  new_info : string;
}.

(** The row of [values_list('submission', 'room', 'start', named=True)]:
    the two foreign keys and the start. *)
Definition SlotKey : Type := Z * option Z * option Z.

Definition slot_key (slot : TalkSlot) : SlotKey :=
  (submission_pk (submission slot), room_pk <$> room slot, start slot).

Definition key_submission (entry : SlotKey) : Z := entry.1.1.

(** Modelled from the spec: [TalkSlot.is_same_slot] is defined in
    [pretalx/schedule/models/slot.py], which is not among the sources.  The
    specification: "two slots are the same placement iff they share
    (submission, room, start).  End time and identity are irrelevant".
    Move matching, its only user, compares slots of one submission, where
    room and start decide alone ([unmatched_room_and_start]). *)
Definition is_same_slot (slot other_slot : TalkSlot) : Prop :=
  slot_key slot = slot_key other_slot.

#[global] Instance is_same_slot_dec slot other_slot :
  Decision (is_same_slot slot other_slot).
Proof. unfold is_same_slot. apply _. Defined.

(** ** The diff engine: [selectors.py] *)

(** [queryset.filter(submission__pk=submission_pk)] *)
Definition filter_submission (submission_pk' : Z) (slots : list TalkSlot)
  : list TalkSlot :=
  filter (λ slot, submission_pk (submission slot) = submission_pk') slots.

(** [[slot for slot in slots if not any(slot.is_same_slot(o) for o in others)]] *)
Definition unmatched (slots others : list TalkSlot) : list TalkSlot :=
  filter (λ slot, ¬ Exists (is_same_slot slot) others) slots.

(** The body of the loop over [zip(old_slots, new_slots)]: the dictionary
    built from one pair. *)
Definition move_record (tz : string) (move : TalkSlot * TalkSlot)
  : Result MovedTalk :=
  let old_slot := move.1 in
  let new_slot := move.2 in
  old_start' ← getattr_of (start old_slot);
  new_start' ← getattr_of (start new_slot);
  old_room' ← getattr_of (room old_slot);
  new_room' ← getattr_of (room new_slot);
  Ok {| moved_submission := submission new_slot;
        old_start := astimezone tz old_start';
        new_start := astimezone tz new_start';
        old_room := room_name old_room';
        new_room := room_name new_room';
        new_info := speaker_info new_room' |}.

Fixpoint build_moved (tz : string) (moves : list (TalkSlot * TalkSlot))
  : Result (list MovedTalk) :=
  match moves with
  | [] => Ok []
  | move :: rest =>
      m ← move_record tz move;
      ms ← build_moved tz rest;
      Ok (m :: ms)
  end.

Definition _handle_submission_move (submission_pk' : Z)
    (old_slots new_slots : list TalkSlot) (tz : string)
  : Result (list TalkSlot * list TalkSlot * list MovedTalk) :=
  let all_old_slots := filter_submission submission_pk' old_slots in
  let all_new_slots := filter_submission submission_pk' new_slots in
  let old_slots := unmatched all_old_slots all_new_slots in
  let new_slots := unmatched all_new_slots all_old_slots in
  let diff := Z.of_nat (length old_slots) - Z.of_nat (length new_slots) in
  let '(new, canceled, old_slots, new_slots) :=
    if decide (diff > 0) then
      ([], take (Z.to_nat diff) old_slots,
       drop (Z.to_nat diff) old_slots, new_slots)
    else if decide (diff < 0) then
      let diff := - diff in
      (take (Z.to_nat diff) new_slots, [],
       old_slots, drop (Z.to_nat diff) new_slots)
    else ([], [], old_slots, new_slots) in
  moved ← build_moved tz (zip old_slots new_slots);
  Ok (new, canceled, moved).

(** ** The store *)

Record LogEntry := {
  log_action_type : string;
  log_person : Z;
  log_orga : bool;
  log_target : Z;
}.

(** The value a speaker is mapped to by [speakers_with_changed_slots]. *)
Record SpeakerChanges := {
  create : list TalkSlot;
  update : list MovedTalk;
}.

(** A queued mail: the recipient and the data its text is rendered from. *)
Record QueuedMail := {
  mail_to : Z;
  mail_event : Z;
  mail_notifications : SpeakerChanges;
}.

(** The database and its collaborators.  Two fields are properties of the
    backend.  [nulls_first]: whether [NULL] sorts before every value in a
    descending [order_by] (PostgreSQL) or after (SQLite, MySQL).
    [union_order]: the order in which the rows of a [UNION] without
    [ORDER BY] come back, which SQL leaves to the backend; it is applied to
    the rows of the union, each taken once. *)
Record Store := {
  schedules : list Schedule;
  talks : list TalkSlot;
  next_schedule_pk : Z;
  next_slot_id : Z;
  clock : Z;
  nulls_first : bool;
  union_order : list TalkSlot → list TalkSlot;
  log : list LogEntry;
  mails : list QueuedMail;
  exports : list Z;
}.

(** ** [class Schedule]: queries *)

(** [schedule.talks.all()], the reverse of the slot's foreign key. *)
Definition talks_of (st : Store) (schedule : Schedule) : list TalkSlot :=
  filter (λ slot, schedule_id slot = pk schedule) (talks st).

(** [event.schedules.all()] *)
Definition schedules_of (st : Store) (ev : Event) : list Schedule :=
  filter (λ s, event_id (event s) = event_id ev) (schedules st).

Definition is_scheduled (slot : TalkSlot) : Prop :=
  room slot ≠ None ∧ start slot ≠ None ∧ is_visible slot = true
  ∧ state (submission slot) ≠ DELETED.

#[global] Instance is_scheduled_dec slot : Decision (is_scheduled slot).
Proof. unfold is_scheduled. apply _. Defined.

Definition scheduled_talks (st : Store) (self : Schedule) : list TalkSlot :=
  filter is_scheduled (talks_of st self).

(** [published__lt=bound]: a [NULL] never satisfies the comparison. *)
Definition published_lt (bound : Z) (s : Schedule) : Prop :=
  match published s with
  | Some p => p < bound
  | None => False
  end.

#[global] Instance published_lt_dec bound s : Decision (published_lt bound s).
Proof. unfold published_lt. destruct (published s); apply _. Defined.

(** [a] is listed no later than [b] by [order_by('-published')]. *)
Definition desc_published (nf : bool) (a b : Schedule) : Prop :=
  match published a, published b with
  | Some x, Some y => y ≤ x
  | None, None => True
  | None, Some _ => nf = true
  | Some _, None => nf = false
  end.

#[global] Instance desc_published_dec nf a b : Decision (desc_published nf a b).
Proof.
  unfold desc_published. destruct (published a), (published b); apply _.
Defined.

Definition previous_schedule (st : Store) (self : Schedule) : option Schedule :=
  let queryset := filter (λ s, pk s ≠ pk self) (schedules_of st (event self)) in
  let queryset :=
    match published self with
    | Some p => filter (published_lt p) queryset
    | None => queryset
    end in
  head (merge_sort (desc_published (nulls_first st)) queryset).

Definition tz (self : Schedule) : string := timezone (event self).

(** ** [compare_schedule_with_predecessor] *)

Record ChangeSet := {
  count : nat;
  action : string;
  new_talks : list TalkSlot;
  canceled_talks : list TalkSlot;
  moved_talks : list MovedTalk;
}.

(** The three [+=] on the lists of [result]. *)
Definition extend_result (result : ChangeSet) (new canceled : list TalkSlot)
    (moved : list MovedTalk) : ChangeSet :=
  {| count := count result;
     action := action result;
     new_talks := new_talks result ++ new;
     canceled_talks := canceled_talks result ++ canceled;
     moved_talks := moved_talks result ++ moved |}.

(** What the first loop does with a submission that is not handled yet. *)
Definition classify_removed (old_slots new_slots : list TalkSlot)
    (new_submissions : gset Z) (tz : string)
    (result : ChangeSet) (sub : Z) : Result ChangeSet :=
  if decide (sub ∉ new_submissions) then
    Ok (extend_result result [] (filter_submission sub old_slots) [])
  else
    '(new, canceled, moved) ←
      _handle_submission_move sub old_slots new_slots tz;
    Ok (extend_result result new canceled moved).

(** What the second loop does with a submission that is not handled yet. *)
Definition classify_added (old_slots new_slots : list TalkSlot)
    (old_submissions : gset Z) (tz : string)
    (result : ChangeSet) (sub : Z) : Result ChangeSet :=
  if decide (sub ∉ old_submissions) then
    Ok (extend_result result (filter_submission sub new_slots) [] [])
  else
    '(new, canceled, moved) ←
      _handle_submission_move sub old_slots new_slots tz;
    Ok (extend_result result new canceled moved).

(** One iteration of either loop: [continue] on a handled submission,
    otherwise classify and add the submission to [handled_submissions]. *)
Definition loop_body (classify : ChangeSet → Z → Result ChangeSet)
    (vars : ChangeSet * gset Z) (entry : SlotKey)
  : Result (ChangeSet * gset Z) :=
  let '(result, handled_submissions) := vars in
  if decide (key_submission entry ∈ handled_submissions) then Ok vars
  else
    result' ← classify result (key_submission entry);
    Ok (result', handled_submissions ∪ {[key_submission entry]}).

Definition initial_result : ChangeSet :=
  {| count := 0; action := "update";
     new_talks := []; canceled_talks := []; moved_talks := [] |}.

Definition set_count (result : ChangeSet) : ChangeSet :=
  {| count := (length (new_talks result) + length (canceled_talks result)
               + length (moved_talks result))%nat;
     action := action result;
     new_talks := new_talks result;
     canceled_talks := canceled_talks result;
     moved_talks := moved_talks result |}.

Definition slot_set (slots : list TalkSlot) : gset SlotKey :=
  list_to_set (slot_key <$> slots).

Definition submission_set (slots : list TalkSlot) : gset Z :=
  list_to_set ((λ slot, submission_pk (submission slot)) <$> slots).

Definition compare_schedule_with_predecessor (st : Store) (schedule : Schedule)
  : Result ChangeSet :=
  let result := initial_result in
  match previous_schedule st schedule with
  | None =>
      Ok {| count := count result; action := "create";
            new_talks := new_talks result;
            canceled_talks := canceled_talks result;
            moved_talks := moved_talks result |}
  | Some previous =>
      let old_slots := scheduled_talks st previous in
      let new_slots := scheduled_talks st schedule in
      let old_slot_set := slot_set old_slots in
      let new_slot_set := slot_set new_slots in
      let old_submissions := submission_set old_slots in
      let new_submissions := submission_set new_slots in
      let handled_submissions : gset Z := ∅ in
      let moved_or_missing := old_slot_set ∖ new_slot_set in
      let moved_or_new := new_slot_set ∖ old_slot_set in
      let tz := tz schedule in
      vars ← for_each
        (loop_body (classify_removed old_slots new_slots new_submissions tz))
        (elements moved_or_missing) (result, handled_submissions);
      vars ← for_each
        (loop_body (classify_added old_slots new_slots old_submissions tz))
        (elements moved_or_new) vars;
      Ok (set_count vars.1)
  end.

(** ** [speakers_with_changed_slots] *)

Definition empty_changes : SpeakerChanges := {| create := []; update := [] |}.

(** [speakers[speaker]['create'].append(new_talk)] on the [defaultdict]. *)
Definition append_create (new_talk : TalkSlot)
    (speakers_map : gmap Z SpeakerChanges) (speaker : Z)
  : gmap Z SpeakerChanges :=
  let entry := default empty_changes (speakers_map !! speaker) in
  <[speaker := {| create := create entry ++ [new_talk];
                  update := update entry |}]> speakers_map.

(** [speakers[speaker]['update'].append(moved_talk)] *)
Definition append_update (moved_talk : MovedTalk)
    (speakers_map : gmap Z SpeakerChanges) (speaker : Z)
  : gmap Z SpeakerChanges :=
  let entry := default empty_changes (speakers_map !! speaker) in
  <[speaker := {| create := create entry;
                  update := update entry ++ [moved_talk] |}]> speakers_map.

(** [User.objects.filter(submissions__slots__schedule=schedule)] *)
Definition users_of_schedule (st : Store) (schedule : Schedule) : gset Z :=
  ⋃ ((λ slot, speakers (submission slot)) <$> talks_of st schedule).

(** What the function returns: a dictionary keyed by speaker in two of its
    branches, and the literal [[]], a list, in the third. *)
Inductive Speakers :=
| EmptyList
| SpeakersDict (entries : gmap Z SpeakerChanges).

(** The names [User] and [defaultdict] are looked up in the namespace of
    [selectors.py] when the branch that uses them is reached: [User] as the
    first step of the comprehension, whose iterable is evaluated before any
    entry is built, and [defaultdict] in the first statement after the two
    tests. *)
Definition speakers_with_changed_slots (st : Store) (schedule : Schedule)
  : Result Speakers :=
  changes ← compare_schedule_with_predecessor st schedule;
  if decide (action changes = "create") then
    global_name selectors_globals "User";;
    Ok (SpeakersDict
          (set_to_map
             (λ speaker,
                (speaker,
                 {| create := filter
                                (λ slot, speaker ∈ speakers (submission slot))
                                (talks_of st schedule);
                    update := [] |}))
             (users_of_schedule st schedule)))
  else if decide (count changes = length (canceled_talks changes)) then
    Ok EmptyList
  else
    global_name selectors_globals "defaultdict";;
    let speakers_map : gmap Z SpeakerChanges := ∅ in
    let speakers_map :=
      foldl (λ acc new_talk,
               foldl (append_create new_talk) acc
                     (elements (speakers (submission new_talk))))
            speakers_map (new_talks changes) in
    let speakers_map :=
      foldl (λ acc moved_talk,
               foldl (append_update moved_talk) acc
                     (elements (speakers (moved_submission moved_talk))))
            speakers_map (moved_talks changes) in
    Ok (SpeakersDict speakers_map).

(** ** Code that changes the store *)

Definition DB (A : Type) : Type := Store → Result A * Store.

#[global] Instance DB_ret : MRet DB := λ A a st, (Ok a, st).
#[global] Instance DB_bind : MBind DB := λ A B f m st,
  match m st with
  | (Ok a, st') => f a st'
  | (Raise e, st') => (Raise e, st')
  end.

Definition raise {A} (cls : ExcClass) (msg : string) : DB A := λ st,
  (Raise {| exc_class := cls; exc_msg := msg |}, st).

(** A query: code that reads the store and may raise. *)
Definition query {A} (q : Store → Result A) : DB A := λ st, (q st, st).

(** A statement that changes the store and cannot fail. *)
Definition modify (f : Store → Store) : DB unit := λ st, (Ok (), f st).

(** [@transaction.atomic]: an exception leaving the block rolls the
    database back to where the block was entered. *)
Definition atomic {A} (m : DB A) : DB A := λ st,
  match m st with
  | (Ok a, st') => (Ok a, st')
  | (Raise e, _) => (Raise e, st)
  end.

Definition with_schedules (v : list Schedule) (st : Store) : Store :=
  {| schedules := v; talks := talks st;
     next_schedule_pk := next_schedule_pk st; next_slot_id := next_slot_id st;
     clock := clock st; nulls_first := nulls_first st;
     union_order := union_order st; log := log st;
     mails := mails st; exports := exports st |}.

Definition with_talks (v : list TalkSlot) (st : Store) : Store :=
  {| schedules := schedules st; talks := v;
     next_schedule_pk := next_schedule_pk st; next_slot_id := next_slot_id st;
     clock := clock st; nulls_first := nulls_first st;
     union_order := union_order st; log := log st;
     mails := mails st; exports := exports st |}.

Definition with_next_schedule_pk (v : Z) (st : Store) : Store :=
  {| schedules := schedules st; talks := talks st;
     next_schedule_pk := v; next_slot_id := next_slot_id st;
     clock := clock st; nulls_first := nulls_first st;
     union_order := union_order st; log := log st;
     mails := mails st; exports := exports st |}.

Definition with_next_slot_id (v : Z) (st : Store) : Store :=
  {| schedules := schedules st; talks := talks st;
     next_schedule_pk := next_schedule_pk st; next_slot_id := v;
     clock := clock st; nulls_first := nulls_first st;
     union_order := union_order st; log := log st;
     mails := mails st; exports := exports st |}.

Definition with_log (v : list LogEntry) (st : Store) : Store :=
  {| schedules := schedules st; talks := talks st;
     next_schedule_pk := next_schedule_pk st; next_slot_id := next_slot_id st;
     clock := clock st; nulls_first := nulls_first st;
     union_order := union_order st; log := v;
     mails := mails st; exports := exports st |}.

Definition with_mails (v : list QueuedMail) (st : Store) : Store :=
  {| schedules := schedules st; talks := talks st;
     next_schedule_pk := next_schedule_pk st; next_slot_id := next_slot_id st;
     clock := clock st; nulls_first := nulls_first st;
     union_order := union_order st; log := log st;
     mails := v; exports := exports st |}.

Definition with_exports (v : list Z) (st : Store) : Store :=
  {| schedules := schedules st; talks := talks st;
     next_schedule_pk := next_schedule_pk st; next_slot_id := next_slot_id st;
     clock := clock st; nulls_first := nulls_first st;
     union_order := union_order st; log := log st;
     mails := mails st; exports := v |}.

(** [django.utils.timezone.now()] *)
Definition now : DB Z := query (λ st, Ok (clock st)).

(** Python's truth value of a nullable string: [None] and the empty string
    are false. *)
Definition truthy (s : option string) : Prop :=
  match s with
  | Some v => v ≠ EmptyString
  | None => False
  end.

#[global] Instance truthy_dec s : Decision (truthy s).
Proof. unfold truthy. destruct s; apply _. Defined.

(** The row of [self] after [UPDATE ... SET published, version]. *)
Definition updated_row (self row : Schedule) : Schedule :=
  if decide (pk row = pk self) then
    {| pk := pk row; event := event row;
       version := version self; published := published self |}
  else row.

(** [unique_together = (('event', 'version'),)]: another row of the same
    event carries the same version; a [NULL] version never collides. *)
Definition version_in_use (rows : list Schedule) (row : Schedule) : Prop :=
  Exists (λ other, pk other ≠ pk row
                   ∧ event_id (event other) = event_id (event row)
                   ∧ version other = version row
                   ∧ version row ≠ None) rows.

#[global] Instance version_in_use_dec rows row :
  Decision (version_in_use rows row).
Proof. unfold version_in_use. apply _. Defined.

(** [self.save(update_fields=['published', 'version'])] *)
Definition save_published_version (self : Schedule) : DB unit := λ st,
  let rows := updated_row self <$> schedules st in
  if decide (Exists (λ row, pk row = pk self) (schedules st)) then
    if decide (Exists (λ row, pk row = pk self ∧ version_in_use rows row) rows)
    then raise IntegrityError "UNIQUE constraint failed: event, version" st
    else modify (with_schedules rows) st
  else raise DatabaseError "Save with update_fields did not affect any rows." st.

(** [self.log_action(action, person=user, orga=True)] *)
Definition log_action (self : Schedule) (action_type : string) (person : Z)
    (orga : bool) : DB unit :=
  modify (λ st, with_log (log st ++ [{| log_action_type := action_type;
                                        log_person := person;
                                        log_orga := orga;
                                        log_target := pk self |}]) st).

(** [Schedule.objects.create(event=ev)] *)
Definition create_schedule (ev : Event) : DB Schedule := λ st,
  let row := {| pk := next_schedule_pk st; event := ev;
                version := None; published := None |} in
  (Ok row,
   with_next_schedule_pk (next_schedule_pk st + 1)
     (with_schedules (schedules st ++ [row]) st)).

Definition set_visible (v : bool) (slot : TalkSlot) : TalkSlot :=
  {| slot_id := slot_id slot; schedule_id := schedule_id slot;
     submission := submission slot; room := room slot; start := start slot;
     end_ := end_ slot; is_visible := v |}.

Definition placed_and_confirmed (slot : TalkSlot) : Prop :=
  start slot ≠ None ∧ state (submission slot) = CONFIRMED.

#[global] Instance placed_and_confirmed_dec slot :
  Decision (placed_and_confirmed slot).
Proof. unfold placed_and_confirmed. apply _. Defined.

(** [schedule.talks.filter(start__isnull=False,
    submission__state=CONFIRMED, is_visible=False).update(is_visible=True)] *)
Definition make_visible (schedule : Schedule) : DB unit :=
  modify (λ st, with_talks
    ((λ slot, if decide (schedule_id slot = pk schedule
                         ∧ placed_and_confirmed slot
                         ∧ is_visible slot = false)
              then set_visible true slot else slot) <$> talks st) st).

(** [schedule.talks.filter(is_visible=True).exclude(start__isnull=False,
    submission__state=CONFIRMED).update(is_visible=False)] *)
Definition make_invisible (schedule : Schedule) : DB unit :=
  modify (λ st, with_talks
    ((λ slot, if decide (schedule_id slot = pk schedule
                         ∧ is_visible slot = true
                         ∧ ¬ placed_and_confirmed slot)
              then set_visible false slot else slot) <$> talks st) st).

(** Modelled from the spec: [TalkSlot.copy_to_schedule] is defined in
    [pretalx/schedule/models/slot.py], which is not among the sources.  The
    specification: "deep-copy: new identity, same
    submission/room/start/end/visibility".  With [save=False] the copy has
    no identity yet. *)
Definition copy_to_schedule (new_schedule : Schedule) (slot : TalkSlot)
  : TalkSlot :=
  {| slot_id := None; schedule_id := pk new_schedule;
     submission := submission slot; room := room slot; start := start slot;
     end_ := end_ slot; is_visible := is_visible slot |}.

Definition set_slot_id (id : Z) (slot : TalkSlot) : TalkSlot :=
  {| slot_id := Some id; schedule_id := schedule_id slot;
     submission := submission slot; room := room slot; start := start slot;
     end_ := end_ slot; is_visible := is_visible slot |}.

Fixpoint assign_ids (next : Z) (objs : list TalkSlot) : list TalkSlot :=
  match objs with
  | [] => []
  | obj :: rest => set_slot_id next obj :: assign_ids (next + 1) rest
  end.

(** [TalkSlot.objects.bulk_create(objs)] *)
Definition bulk_create (objs : list TalkSlot) : DB unit :=
  modify (λ st,
    with_next_slot_id (next_slot_id st + Z.of_nat (length objs))
      (with_talks (talks st ++ assign_ids (next_slot_id st) objs) st)).

(** A name of [actions.py] is evaluated. *)
Definition actions_name (name : string) : DB unit :=
  query (λ _, global_name actions_globals name).

(** [for speaker in speakers_concerned]: the keys of a dictionary, the
    elements of a list. *)
Definition iterate (speakers_concerned : Speakers)
  : list (Z * SpeakerChanges) :=
  match speakers_concerned with
  | EmptyList => []
  | SpeakersDict entries => map_to_list entries
  end.

(** The first statement of the body imports [get_speakers_with_changed_slots]
    from [pretalx.schedule.selectors], a name that module does not bind.
    What follows the import is the body as written, with the selector the
    module does define in the place of the call; the loop body starts by
    evaluating [override]. *)
Definition create_release_notifications (schedule : Schedule) (commit : bool)
  : DB (list QueuedMail) :=
  query (λ _, import_from selectors_globals "pretalx.schedule.selectors"
                "get_speakers_with_changed_slots");;
  speakers_concerned ← query (λ st, speakers_with_changed_slots st schedule);
  mails' ← query (λ _,
    for_each
      (λ mails' (entry : Z * SpeakerChanges),
         global_name actions_globals "override";;
         global_name actions_globals "tzoverride";;
         global_name actions_globals "get_template";;
         global_name actions_globals "template_context_from_event";;
         Ok (mails' ++ [{| mail_to := entry.1;
                           mail_event := event_id (event schedule);
                           mail_notifications := entry.2 |}]))
      (iterate speakers_concerned) []);
  (if commit then modify (λ st, with_mails (mails st ++ mails') st)
   else mret ());;
  mret mails'.

Definition dquote : string := String (Ascii.ascii_of_nat 34) EmptyString.

(** ** [freeze_schedule] *)

(** The body as written.  [Schedule], [SubmissionStates] and [suppress] are
    names [actions.py] does not bind; each is looked up where the statement
    that uses it is reached.  The two assignments to [schedule.published]
    and [schedule.version] change the object in memory; the store follows
    the database, which the transaction restores when the block is left by
    an exception. *)
Definition freeze_schedule (schedule : Schedule) (name : string) (user : Z)
    (notify_speakers : bool) : DB (Schedule * Schedule) :=
  atomic (
    if decide (name ∈ ["wip"; "latest"]) then
      raise Exception
        ("Cannot use reserved name " ++ dquote ++ name ++ dquote
         ++ " for schedule version.")
    else if decide (truthy (version schedule)) then
      raise Exception
        ("Cannot freeze schedule version: already versioned as " ++ dquote
         ++ default EmptyString (version schedule) ++ dquote ++ ".")
    else if decide (name = EmptyString) then
      raise Exception "Cannot create schedule version without a version name."
    else
      t ← now;
      let schedule := {| pk := pk schedule; event := event schedule;
                         version := Some name; published := Some t |} in
      save_published_version schedule;;
      log_action schedule "pretalx.schedule.release" user true;;
      actions_name "Schedule";;
      wip_schedule ← create_schedule (event schedule);
      actions_name "SubmissionStates";;
      make_visible schedule;;
      actions_name "SubmissionStates";;
      make_invisible schedule;;
      talks' ← query (λ st, Ok (copy_to_schedule wip_schedule
                                  <$> talks_of st schedule));
      bulk_create talks';;
      (if notify_speakers
       then create_release_notifications schedule true;; mret ()
       else mret ());;
      actions_name "suppress";;
      actions_name "suppress";;
      (if export_html_on_schedule_release (event schedule)
       then modify (λ st, with_exports
                            (exports st ++ [event_id (event schedule)]) st)
       else mret ());;
      mret (schedule, wip_schedule)).

(** ** [Schedule.unfreeze] *)

(** Modelled from the spec: [Event.wip_schedule] is defined in
    [pretalx/event/models/event.py], which is not among the sources.  The
    specification: the working draft is "the single mutable, unversioned
    schedule per event", [version = null], and an event has one from the
    moment it starts; the lookup fails on a store without one. *)
Definition wip_schedule (ev : Event) : DB Schedule :=
  query (λ st,
    match filter (λ s, version s = None) (schedules_of st ev) with
    | s :: _ => Ok s
    | [] => Raise {| exc_class := DoesNotExist;
                     exc_msg := "Schedule matching query does not exist." |}
    end).

(** [a.union(b)], SQL's [UNION]: the rows of both, each row once, in the
    order the backend returns them. *)
Definition union_rows (st : Store) (a b : list TalkSlot) : list TalkSlot :=
  union_order st (remove_dups (a ++ b)).

(** [queryset.exclude(submission_id__in=submission_ids)] *)
Definition exclude_submissions (submission_ids : list Z)
    (slots : list TalkSlot) : list TalkSlot :=
  filter (λ slot, submission_pk (submission slot) ∉ submission_ids) slots.

(** [schedule.talks.all().delete()] *)
Definition delete_talks_of (schedule : Schedule) : DB unit :=
  modify (λ st, with_talks
    (filter (λ slot, schedule_id slot ≠ pk schedule) (talks st)) st).

(** [schedule.delete()] *)
Definition delete_schedule (schedule : Schedule) : DB unit :=
  modify (λ st, with_schedules
    (filter (λ s, pk s ≠ pk schedule) (schedules st)) st).

(** The event object keeps its [wip_schedule] from the first access on, so
    the draft that is emptied and deleted at the end is the one read at the
    start, not the one created in between. *)
Definition unfreeze (self : Schedule) (user : option Z)
  : DB (Schedule * Schedule) :=
  atomic (
    if decide (¬ truthy (version self)) then
      raise Exception "Cannot unfreeze schedule version: not released yet."
    else
      old_wip ← wip_schedule (event self);
      new_wip ← create_schedule (event self);
      talks' ← query (λ st,
        let submission_ids :=
          (λ slot, submission_pk (submission slot)) <$> talks_of st self in
        Ok (union_rows st
              (exclude_submissions submission_ids (talks_of st old_wip))
              (talks_of st self)));
      bulk_create (copy_to_schedule new_wip <$> talks');;
      delete_talks_of old_wip;;
      delete_schedule old_wip;;
      mret (self, new_wip)).

(** ** [Schedule.warnings] *)

(** The dictionary [warnings] returns. *)
Record Warnings := {
  talk_warnings : list TalkSlot;
  unscheduled : list TalkSlot;
  unconfirmed : list TalkSlot;
  no_track : list TalkSlot;
}.

Section warnings.
(** What the loop reads from code that is not among the sources: whether
    [talk.warnings] is empty, whether the event of a submission uses
    tracks, and whether a submission has a track. *)
Variable has_warnings : TalkSlot → bool.
Variable use_tracks : Submission → bool.
Variable has_track : Submission → bool.

(** One iteration of the loop over [self.talks.all()].  A datetime is
    always true, so [not talk.start] asks whether the start is [None]. *)
Definition warnings_step (w : Warnings) (talk : TalkSlot) : Warnings :=
  let w :=
    if decide (start talk = None) then
      {| talk_warnings := talk_warnings w;
         unscheduled := unscheduled w ++ [talk];
         unconfirmed := unconfirmed w; no_track := no_track w |}
    else if has_warnings talk then
      {| talk_warnings := talk_warnings w ++ [talk];
         unscheduled := unscheduled w;
         unconfirmed := unconfirmed w; no_track := no_track w |}
    else w in
  let w :=
    if decide (state (submission talk) ≠ CONFIRMED) then
      {| talk_warnings := talk_warnings w; unscheduled := unscheduled w;
         unconfirmed := unconfirmed w ++ [talk]; no_track := no_track w |}
    else w in
  if use_tracks (submission talk) && negb (has_track (submission talk)) then
    {| talk_warnings := talk_warnings w; unscheduled := unscheduled w;
       unconfirmed := unconfirmed w; no_track := no_track w ++ [talk] |}
  else w.

Definition warnings (st : Store) (self : Schedule) : Warnings :=
  foldl warnings_step
        {| talk_warnings := []; unscheduled := [];
           unconfirmed := []; no_track := [] |}
        (talks_of st self).
End warnings.

(** ** [Schedule.url_version] *)

(** [urllib.parse.quote] with its default [safe='/'], on the UTF-8 bytes of
    the string: letters, digits, [_.-] and [/] stay, every other byte
    becomes [%] and two upper-case hexadecimal digits.  [~] stays from
    Python 3.7 on and is quoted before: [tilde_safe] says which. *)
Definition is_safe (tilde_safe : bool) (c : Ascii.ascii) : bool :=
  let n := Ascii.nat_of_ascii c in
  ((65 <=? n) && (n <=? 90) || (97 <=? n) && (n <=? 122)
   || (48 <=? n) && (n <=? 57)
   || (n =? 95) || (n =? 46) || (n =? 45) || (n =? 47)
   || tilde_safe && (n =? 126))%nat.

Definition hex_digit (n : nat) : Ascii.ascii :=
  if (n <? 10)%nat then Ascii.ascii_of_nat (48 + n)
  else Ascii.ascii_of_nat (55 + n).

Definition quote_byte (tilde_safe : bool) (c : Ascii.ascii) : string :=
  if is_safe tilde_safe c then String c EmptyString
  else String (Ascii.ascii_of_nat 37)
         (String (hex_digit (Ascii.nat_of_ascii c / 16))
            (String (hex_digit (Ascii.nat_of_ascii c mod 16)) EmptyString)).

Fixpoint quote (tilde_safe : bool) (s : string) : string :=
  match s with
  | EmptyString => EmptyString
  | String c rest => quote_byte tilde_safe c ++ quote tilde_safe rest
  end.

Definition url_version (tilde_safe : bool) (self : Schedule) : string :=
  if decide (truthy (version self))
  then quote tilde_safe (default EmptyString (version self))
  else "wip".

(** ** Predicates of the statements *)

(** A slot that has both a room and a start, as every slot of
    [scheduled_talks] has. *)
Definition placed (slot : TalkSlot) : Prop :=
  room slot ≠ None ∧ start slot ≠ None.

#[global] Instance placed_dec slot : Decision (placed slot).
Proof. unfold placed. apply _. Defined.

(** Where an entry of the diff comes from: a new or canceled slot is a slot
    of its side whose key the other side lacks, and a move is built from
    one such slot of each side. *)
Definition new_from (old_slots new_slots : list TalkSlot) (slot : TalkSlot)
  : Prop :=
  slot ∈ new_slots ∧ slot_key slot ∉ slot_set old_slots.

Definition canceled_from (old_slots new_slots : list TalkSlot) (slot : TalkSlot)
  : Prop :=
  slot ∈ old_slots ∧ slot_key slot ∉ slot_set new_slots.

Definition moved_from (old_slots new_slots : list TalkSlot) (tz : string)
    (m : MovedTalk) : Prop :=
  ∃ old_slot new_slot,
    canceled_from old_slots new_slots old_slot
    ∧ new_from old_slots new_slots new_slot
    ∧ submission_pk (submission old_slot) = submission_pk (submission new_slot)
    ∧ move_record tz (old_slot, new_slot) = Ok m.

Definition diff_sound (old_slots new_slots : list TalkSlot) (tz : string)
    (changes : ChangeSet) : Prop :=
  Forall (new_from old_slots new_slots) (new_talks changes)
  ∧ Forall (canceled_from old_slots new_slots) (canceled_talks changes)
  ∧ Forall (moved_from old_slots new_slots tz) (moved_talks changes).

(** The submissions a loop classifies, in order: those of the entries it
    does not skip, given the submissions handled when it starts. *)
Fixpoint classified (handled : gset Z) (entries : list SlotKey) : list Z :=
  match entries with
  | [] => []
  | entry :: rest =>
      if decide (key_submission entry ∈ handled) then classified handled rest
      else key_submission entry
           :: classified (handled ∪ {[key_submission entry]}) rest
  end.

(** What one classification adds to the lists: slots of its submission,
    each once when the tables hold each slot once. *)
Definition adds_slots_of (classify : ChangeSet → Z → Result ChangeSet)
    (old_slots new_slots : list TalkSlot) : Prop :=
  ∀ result sub result', classify result sub = Ok result' →
    ∃ new canceled moved,
      result' = extend_result result new canceled moved
      ∧ Forall (λ slot, submission_pk (submission slot) = sub) (new ++ canceled)
      ∧ (NoDup new_slots → NoDup new)
      ∧ (NoDup old_slots → NoDup canceled).

(** The slots classified so far are those of the submissions in [done']. *)
Definition classified_slots (old_slots new_slots : list TalkSlot)
    (done' : list Z) (result : ChangeSet) : Prop :=
  Forall (λ slot, submission_pk (submission slot) ∈ done')
         (new_talks result ++ canceled_talks result)
  ∧ (NoDup new_slots → NoDup (new_talks result))
  ∧ (NoDup old_slots → NoDup (canceled_talks result)).

(** The rows [previous_schedule] chooses from before it looks at
    [published]: the other schedules of the event. *)
Definition candidate (st : Store) (self other : Schedule) : Prop :=
  other ∈ schedules st
  ∧ event_id (event other) = event_id (event self)
  ∧ pk other ≠ pk self.

(** [schedule] is a row of the schedule table. *)
Definition stored (st : Store) (schedule : Schedule) : Prop :=
  ∃ row, row ∈ schedules st ∧ pk row = pk schedule.

(** Another schedule of the event of [schedule]'s row has version [name]. *)
Definition name_in_use (st : Store) (schedule : Schedule) (name : string)
  : Prop :=
  ∃ row other,
    row ∈ schedules st ∧ other ∈ schedules st
    ∧ pk row = pk schedule ∧ pk other ≠ pk schedule
    ∧ event_id (event other) = event_id (event row)
    ∧ version other = Some name.

(** The class of the exception a result carries, if it carries one. *)
Definition raised_class {A} (r : Result A) : option ExcClass :=
  match r with
  | Ok _ => None
  | Raise e => Some (exc_class e)
  end.

(** What the code relies on in a store: schedule keys are unique and, like
    the schedule a slot belongs to, below the next key to be given out. *)
Definition store_wf (st : Store) : Prop :=
  NoDup (pk <$> schedules st)
  ∧ Forall (λ s, pk s < next_schedule_pk st) (schedules st)
  ∧ Forall (λ slot, schedule_id slot < next_schedule_pk st) (talks st).

#[global] Instance store_wf_dec st : Decision (store_wf st).
Proof. unfold store_wf. apply _. Defined.

(** What a copy keeps of a slot: everything but its identity and its
    schedule. *)
Definition slot_content (slot : TalkSlot)
  : Submission * option Room * option Z * option Z * bool :=
  (submission slot, room slot, start slot, end_ slot, is_visible slot).

(** Every entry of [result] is an entry of [result']. *)
Definition result_le (result result' : ChangeSet) : Prop :=
  (∀ slot, slot ∈ new_talks result → slot ∈ new_talks result')
  ∧ (∀ slot, slot ∈ canceled_talks result → slot ∈ canceled_talks result')
  ∧ (∀ m, m ∈ moved_talks result → m ∈ moved_talks result').

(** The room and the start of a slot, without its submission. *)
Definition placement (slot : TalkSlot) : option Z * option Z :=
  (room_pk <$> room slot, start slot).

(** [d] is the working draft of the event [ev], and its only one. *)
Definition only_draft (st : Store) (ev : Event) (d : Schedule) : Prop :=
  d ∈ schedules st ∧ version d = None
  ∧ event_id (event d) = event_id ev
  ∧ ∀ s, s ∈ schedules st → event_id (event s) = event_id ev →
         version s = None → s = d.

(** Every slot belongs to a schedule of the store. *)
Definition slots_attached (st : Store) : Prop :=
  ∀ slot, slot ∈ talks st →
    ∃ s, s ∈ schedules st ∧ pk s = schedule_id slot.

(** ** Sample data *)

(** A backend that returns the rows of a union in the order of their
    keys. *)
Definition by_slot_id (a b : TalkSlot) : Prop :=
  default 0 (slot_id a) ≤ default 0 (slot_id b).

#[global] Instance by_slot_id_dec a b : Decision (by_slot_id a b).
Proof. unfold by_slot_id. apply _. Defined.

Definition key_order (rows : list TalkSlot) : list TalkSlot :=
  merge_sort by_slot_id rows.

(** Sample slots for the examples: submission, room and start are given,
    the rest is fixed. *)
Definition sample_submission (n : Z) : Submission :=
  {| submission_pk := n; state := CONFIRMED; speakers := {[ 100 + n ]} |}.

Definition sample_room (n : Z) : Room :=
  {| room_pk := n; room_name := "Room"; speaker_info := "Bring an adapter." |}.

Definition sample_slot (id sched sub r t : Z) : TalkSlot :=
  {| slot_id := Some id; schedule_id := sched;
     submission := sample_submission sub; room := Some (sample_room r);
     start := Some t; end_ := Some (t + 1); is_visible := true |}.

(** The first scenario of the specification: version [v1] holds
    (sub 1, room 1, 10:00) and (sub 2, room 2, 11:00); the draft holds
    (sub 1, room 1, 10:00), (sub 2, room 3, 11:00) and
    (sub 3, room 1, 12:00). *)
Definition sample_event : Event :=
  {| event_id := 1; timezone := "UTC";
     export_html_on_schedule_release := true |}.

Definition sample_released : Schedule :=
  {| pk := 1; event := sample_event; version := Some "v1";
     published := Some 5 |}.

Definition sample_draft : Schedule :=
  {| pk := 2; event := sample_event; version := None; published := None |}.

Definition sample_store : Store :=
  {| schedules := [sample_released; sample_draft];
     talks := [sample_slot 1 1 1 1 10; sample_slot 2 1 2 2 11;
               sample_slot 3 2 1 1 10; sample_slot 4 2 2 3 11;
               sample_slot 5 2 3 1 12];
     next_schedule_pk := 3; next_slot_id := 6; clock := 20;
     nulls_first := true; union_order := key_order;
     log := []; mails := []; exports := [] |}.

(** A second release of the sample event, after [v1]. *)
Definition sample_second : Schedule :=
  {| pk := 3; event := sample_event; version := Some "v2";
     published := Some 9 |}.

Definition sample_store_two : Store :=
  {| schedules := [sample_released; sample_draft; sample_second];
     talks := talks sample_store;
     next_schedule_pk := 4; next_slot_id := 6; clock := 20;
     nulls_first := true; union_order := key_order;
     log := []; mails := []; exports := [] |}.

(** A store whose draft holds a confirmed slot that is hidden, an
    unconfirmed one that is visible, and a confirmed one without a start
    that is visible. *)
Definition sample_store_mixed : Store :=
  {| schedules := [sample_draft];
     talks :=
       [{| slot_id := Some 1; schedule_id := 2;
           submission := sample_submission 1; room := Some (sample_room 1);
           start := Some 10; end_ := Some 11; is_visible := false |};
        {| slot_id := Some 2; schedule_id := 2;
           submission := {| submission_pk := 2; state := OtherState "accepted";
                            speakers := {[ 102 ]} |};
           room := Some (sample_room 1);
           start := Some 12; end_ := Some 13; is_visible := true |};
        {| slot_id := Some 3; schedule_id := 2;
           submission := sample_submission 3; room := None;
           start := None; end_ := None; is_visible := true |}];
     next_schedule_pk := 3; next_slot_id := 4; clock := 20;
     nulls_first := true; union_order := key_order;
     log := []; mails := []; exports := [] |}.

(** The hidden slot of the mixed store: confirmed, with a room and a
    start. *)
Definition sample_hidden : TalkSlot :=
  {| slot_id := Some 1; schedule_id := 2;
     submission := sample_submission 1; room := Some (sample_room 1);
     start := Some 10; end_ := Some 11; is_visible := false |}.

(** A schedule whose version is set to the empty string, and a store that
    holds it next to the draft of its event. *)
Definition sample_blank : Schedule :=
  {| pk := 1; event := sample_event; version := Some EmptyString;
     published := None |}.

Definition sample_store_blank : Store :=
  {| schedules := [sample_blank; sample_draft];
     talks := [sample_slot 1 1 1 1 10; sample_slot 2 2 1 1 10];
     next_schedule_pk := 3; next_slot_id := 3; clock := 20;
     nulls_first := true; union_order := key_order;
     log := []; mails := []; exports := [] |}.

(** A store whose draft lost the slot of submission 2 and changed nothing
    else. *)
Definition sample_store_canceled : Store :=
  {| schedules := [sample_released; sample_draft];
     talks := [sample_slot 1 1 1 1 10; sample_slot 2 1 2 2 11;
               sample_slot 3 2 1 1 10];
     next_schedule_pk := 3; next_slot_id := 4; clock := 20;
     nulls_first := true; union_order := key_order;
     log := []; mails := []; exports := [] |}.

(** * Properties *)

(** A decidable side condition on concrete data. *)
Ltac by_computation := apply (bool_decide_unpack _); by vm_compute.

(** ** The error monad *)

Lemma bind_Ok_inv {A B} (m : Result A) (f : A → Result B) (b : B) :
  m ≫= f = Ok b → ∃ a, m = Ok a ∧ f a = Ok b.
Proof. destruct m as [a|e]; simpl; [eauto | discriminate]. Qed.

(** A loop whose iterations cannot raise on the states it reaches runs
    through. *)
Lemma for_each_total {A S} (body : S → A → Result S) (P : S → Prop)
    (l : list A) (s : S) :
  (∀ s1 x, x ∈ l → P s1 → ∃ s2, body s1 x = Ok s2 ∧ P s2) →
  P s → ∃ s', for_each body l s = Ok s' ∧ P s'.
Proof.
  revert s. induction l as [|x l IH]; intros s Hstep Hs; simpl.
  - eauto.
  - destruct (Hstep s x) as (s1 & -> & Hs1); [by left|done|]. simpl.
    apply IH; [|done]. intros ? ? Hin. apply Hstep. by right.
Qed.

(** ** Move matching *)

Lemma move_record_placed tz (move : TalkSlot * TalkSlot) :
  placed move.1 → placed move.2 → ∃ m, move_record tz move = Ok m.
Proof.
  intros [Hr1 Hs1] [Hr2 Hs2]. unfold move_record.
  destruct (start move.1), (start move.2), (room move.1), (room move.2);
    try done; simpl; eauto.
Qed.

Lemma build_moved_placed tz (moves : list (TalkSlot * TalkSlot)) :
  Forall (λ move, placed move.1 ∧ placed move.2) moves →
  ∃ moved, build_moved tz moves = Ok moved
           ∧ Forall2 (λ move m, move_record tz move = Ok m) moves moved.
Proof.
  induction 1 as [|move moves [H1 H2] _ (moved & IH & HF)]; simpl.
  - exists []. by split.
  - destruct (move_record_placed tz move H1 H2) as [m Hm].
    rewrite Hm, IH. simpl. exists (m :: moved). split; [done|].
    by constructor.
Qed.

Lemma build_moved_inv tz (moves : list (TalkSlot * TalkSlot)) moved :
  build_moved tz moves = Ok moved →
  Forall2 (λ move m, move_record tz move = Ok m) moves moved.
Proof.
  revert moved. induction moves as [|move moves IH]; intros moved H; simpl in H.
  - inversion H. constructor.
  - apply bind_Ok_inv in H as (m & Hm & H).
    apply bind_Ok_inv in H as (ms & Hms & H). inversion H; subst.
    constructor; auto.
Qed.

Lemma Forall_zip_placed (l k : list TalkSlot) :
  Forall placed l → Forall placed k →
  Forall (λ move : TalkSlot * TalkSlot, placed move.1 ∧ placed move.2) (zip l k).
Proof.
  intros Hl. revert k. induction Hl as [|x l Hx Hl IH]; intros k Hk; [constructor|].
  destruct Hk as [|y k Hy Hk]; simpl; constructor; auto.
Qed.

Lemma elem_of_unmatched (slots others : list TalkSlot) slot :
  slot ∈ unmatched slots others ↔
  slot ∈ slots ∧ ¬ ∃ other, other ∈ others ∧ slot_key other = slot_key slot.
Proof.
  unfold unmatched. rewrite list_elem_of_filter, Exists_exists.
  unfold is_same_slot. split; intros [H1 H2]; split; try done.
  - intros (o & Ho & Hk). apply H1. eauto.
  - intros (o & Ho & Hk). apply H2. eauto.
Qed.

Lemma elem_of_filter_submission sub (slots : list TalkSlot) slot :
  slot ∈ filter_submission sub slots ↔
  slot ∈ slots ∧ submission_pk (submission slot) = sub.
Proof. unfold filter_submission. rewrite list_elem_of_filter. tauto. Qed.

(** The slots move matching works on: those of the submission that have no
    counterpart with the same (submission, room, start) on the other side. *)
Lemma elem_of_unmatched_submission sub (slots others : list TalkSlot) slot :
  slot ∈ unmatched (filter_submission sub slots) (filter_submission sub others)
  ↔ slot ∈ slots ∧ submission_pk (submission slot) = sub
    ∧ ¬ ∃ other, other ∈ others ∧ slot_key other = slot_key slot.
Proof.
  rewrite elem_of_unmatched, elem_of_filter_submission. split.
  - intros [[H1 H2] H3]. repeat split; try done.
    intros (o & Ho & Hk). apply H3. exists o. split; [|done].
    apply elem_of_filter_submission. split; [done|].
    unfold slot_key in Hk. congruence.
  - intros (H1 & H2 & H3). repeat split; try done.
    intros (o & Ho & Hk). apply H3. exists o. split; [|done].
    by apply elem_of_filter_submission in Ho as [? _].
Qed.

Lemma filter_ext_in {A} (P Q : A → Prop) `{∀ x, Decision (P x)}
    `{∀ x, Decision (Q x)} (l : list A) :
  (∀ x, x ∈ l → (P x ↔ Q x)) → filter P l = filter Q l.
Proof.
  induction l as [|x l IH]; intros Hiff; [done|].
  assert (Hx : P x ↔ Q x) by (apply Hiff; by left).
  assert (Hl : filter P l = filter Q l).
  { apply IH. intros y Hy. apply Hiff. by right. }
  destruct (decide (P x)) as [Hp|Hp].
  - rewrite !filter_cons_True by tauto. by rewrite Hl.
  - rewrite !filter_cons_False by tauto. done.
Qed.

(** Inside move matching both lists hold slots of one submission, so a
    comparison of room and start alone finds the same counterparts. *)
Lemma unmatched_room_and_start sub (slots others : list TalkSlot) :
  unmatched (filter_submission sub slots) (filter_submission sub others)
  = filter (λ slot, ¬ Exists (λ other, (room_pk <$> room slot)
                                         = (room_pk <$> room other)
                                       ∧ start slot = start other)
                             (filter_submission sub others))
           (filter_submission sub slots).
Proof.
  unfold unmatched. apply filter_ext_in.
  intros slot [_ Hsub]%elem_of_filter_submission.
  rewrite !Exists_exists. unfold is_same_slot, slot_key.
  split; intros Hn (o & Ho & Hsame); apply Hn; exists o; (split; [done|]).
  - destruct Hsame as [Hr Hs].
    apply elem_of_filter_submission in Ho as [_ Ho]. congruence.
  - by inversion Hsame.
Qed.

(** One formula for the three branches: [Z.to_nat] of a negative number is
    [0], so at most one of the two prefixes is not empty. *)
Lemma handle_submission_move_spec sub (old_slots new_slots : list TalkSlot) tz :
  Forall placed old_slots → Forall placed new_slots →
  let A := unmatched (filter_submission sub old_slots)
                     (filter_submission sub new_slots) in
  let B := unmatched (filter_submission sub new_slots)
                     (filter_submission sub old_slots) in
  let diff := Z.of_nat (length A) - Z.of_nat (length B) in
  ∃ moved,
    _handle_submission_move sub old_slots new_slots tz
      = Ok (take (Z.to_nat (- diff)) B, take (Z.to_nat diff) A, moved)
    ∧ Forall2 (λ move m, move_record tz move = Ok m)
        (zip (drop (Z.to_nat diff) A) (drop (Z.to_nat (- diff)) B)) moved
    ∧ length (drop (Z.to_nat diff) A) = length (drop (Z.to_nat (- diff)) B).
Proof.
  intros Hold Hnew A B diff.
  assert (HA : Forall placed A).
  { apply Forall_forall. intros x Hx. subst A.
    apply elem_of_unmatched_submission in Hx as (Hx & _).
    by eapply Forall_forall in Hold. }
  assert (HB : Forall placed B).
  { apply Forall_forall. intros x Hx. subst B.
    apply elem_of_unmatched_submission in Hx as (Hx & _).
    by eapply Forall_forall in Hnew. }
  unfold _handle_submission_move. fold A B diff.
  destruct (decide (diff > 0)) as [Hpos|Hnpos];
    [|destruct (decide (diff < 0)) as [Hneg|Hnneg]].
  - replace (Z.to_nat (- diff)) with 0%nat by lia. rewrite take_0, drop_0.
    destruct (build_moved_placed tz (zip (drop (Z.to_nat diff) A) B))
      as (moved & -> & HF).
    { apply Forall_zip_placed; [by apply Forall_drop|done]. }
    exists moved. simpl. repeat split; try done.
    rewrite length_drop. subst diff. lia.
  - replace (Z.to_nat diff) with 0%nat by lia. rewrite take_0, drop_0.
    destruct (build_moved_placed tz (zip A (drop (Z.to_nat (- diff)) B)))
      as (moved & -> & HF).
    { apply Forall_zip_placed; [done|by apply Forall_drop]. }
    exists moved. simpl. repeat split; try done.
    rewrite length_drop. subst diff. lia.
  - replace (Z.to_nat diff) with 0%nat by lia.
    replace (Z.to_nat (- diff)) with 0%nat by lia.
    rewrite !take_0, !drop_0.
    destruct (build_moved_placed tz (zip A B)) as (moved & -> & HF).
    { by apply Forall_zip_placed. }
    exists moved. simpl. repeat split; try done.
    subst diff. lia.
Qed.

(** The same description of a call that returned, whatever the slots. *)
Lemma handle_submission_move_inv sub (old_slots new_slots : list TalkSlot) tz
    new canceled moved :
  _handle_submission_move sub old_slots new_slots tz = Ok (new, canceled, moved) →
  let A := unmatched (filter_submission sub old_slots)
                     (filter_submission sub new_slots) in
  let B := unmatched (filter_submission sub new_slots)
                     (filter_submission sub old_slots) in
  let diff := Z.of_nat (length A) - Z.of_nat (length B) in
  new = take (Z.to_nat (- diff)) B
  ∧ canceled = take (Z.to_nat diff) A
  ∧ Forall2 (λ move m, move_record tz move = Ok m)
      (zip (drop (Z.to_nat diff) A) (drop (Z.to_nat (- diff)) B)) moved
  ∧ length (drop (Z.to_nat diff) A) = length (drop (Z.to_nat (- diff)) B).
Proof.
  intros H A B diff. unfold _handle_submission_move in H. fold A B diff in H.
  destruct (decide (diff > 0)) as [Hpos|Hnpos];
    [|destruct (decide (diff < 0)) as [Hneg|Hnneg]];
    apply bind_Ok_inv in H as (ms & Hms & H); inversion H; subst new canceled ms;
    apply build_moved_inv in Hms.
  - replace (Z.to_nat (- diff)) with 0%nat by lia. rewrite take_0, drop_0.
    repeat split; try done. rewrite length_drop. subst diff. lia.
  - replace (Z.to_nat diff) with 0%nat by lia. rewrite take_0, drop_0.
    repeat split; try done. rewrite length_drop. subst diff. lia.
  - replace (Z.to_nat diff) with 0%nat by lia.
    replace (Z.to_nat (- diff)) with 0%nat by lia.
    rewrite !take_0, !drop_0. repeat split; try done. subst diff. lia.
Qed.

(** C1: move matching works on the old and the new slots of the submission
    that have no counterpart with the same (submission, room, start) on the
    other side, [A] and [B].  With [diff = len(A) - len(B)]: the call
    returns; the moves are built from a list of pairs that pairs the old
    slots left over with the new slots left over, position by position,
    none left out; if [diff > 0] the first [diff] slots of [A] are canceled,
    nothing is new and the rest of [A] is paired with all of [B]; if
    [diff < 0] the first [-diff] slots of [B] are new, nothing is canceled
    and all of [A] is paired with the rest of [B]; if [diff = 0] nothing is
    new or canceled and all of [A] is paired with all of [B]. *)
Theorem move_matching_classification sub (old_slots new_slots : list TalkSlot) tz :
  Forall placed old_slots → Forall placed new_slots →
  let A := unmatched (filter_submission sub old_slots)
                     (filter_submission sub new_slots) in
  let B := unmatched (filter_submission sub new_slots)
                     (filter_submission sub old_slots) in
  let diff := Z.of_nat (length A) - Z.of_nat (length B) in
  (∀ slot, slot ∈ A ↔
     slot ∈ old_slots ∧ submission_pk (submission slot) = sub
     ∧ ¬ ∃ other, other ∈ new_slots ∧ slot_key other = slot_key slot)
  ∧ (∀ slot, slot ∈ B ↔
     slot ∈ new_slots ∧ submission_pk (submission slot) = sub
     ∧ ¬ ∃ other, other ∈ old_slots ∧ slot_key other = slot_key slot)
  ∧ ∃ new canceled moved pairs,
      _handle_submission_move sub old_slots new_slots tz
        = Ok (new, canceled, moved)
      ∧ Forall2 (λ move m, move_record tz move = Ok m) pairs moved
      ∧ A = canceled ++ pairs.*1
      ∧ B = new ++ pairs.*2
      ∧ (diff > 0 →
         canceled = take (Z.to_nat diff) A ∧ new = []
         ∧ pairs = zip (drop (Z.to_nat diff) A) B)
      ∧ (diff < 0 →
         new = take (Z.to_nat (- diff)) B ∧ canceled = []
         ∧ pairs = zip A (drop (Z.to_nat (- diff)) B))
      ∧ (diff = 0 → new = [] ∧ canceled = [] ∧ pairs = zip A B).
Proof.
  intros Hold Hnew A B diff.
  split; [intros slot; apply elem_of_unmatched_submission|].
  split; [intros slot; apply elem_of_unmatched_submission|].
  destruct (handle_submission_move_spec sub old_slots new_slots tz Hold Hnew)
    as (moved & Hrun & HF & Hlen).
  fold A B diff in Hrun, HF, Hlen.
  exists (take (Z.to_nat (- diff)) B), (take (Z.to_nat diff) A), moved,
    (zip (drop (Z.to_nat diff) A) (drop (Z.to_nat (- diff)) B)).
  split; [done|]. split; [done|].
  rewrite fst_zip, snd_zip, !take_drop by lia.
  split; [done|]. split; [done|].
  split; [|split].
  - intros Hd. replace (Z.to_nat (- diff)) with 0%nat by lia.
    by rewrite take_0, drop_0.
  - intros Hd. replace (Z.to_nat diff) with 0%nat by lia.
    by rewrite take_0, drop_0.
  - intros Hd. replace (Z.to_nat diff) with 0%nat by lia.
    replace (Z.to_nat (- diff)) with 0%nat by lia.
    by rewrite !take_0, !drop_0.
Qed.

(** The second scenario of the specification: submission 4 had room 1 at
    9:00 and at 14:00 and keeps only 9:00; the slot at 14:00 is canceled. *)
Lemma move_matching_classification_witness :
  ∃ new canceled moved,
    _handle_submission_move 4
      [sample_slot 1 1 4 1 9; sample_slot 2 1 4 1 14] [sample_slot 3 2 4 1 9]
      "UTC"
    = Ok (new, canceled, moved)
    ∧ canceled = [sample_slot 2 1 4 1 14] ∧ new = [].
Proof.
  destruct (move_matching_classification 4
              [sample_slot 1 1 4 1 9; sample_slot 2 1 4 1 14]
              [sample_slot 3 2 4 1 9] "UTC")
    as (_ & _ & new & canceled & moved & pairs & Hrun & _ & _ & _ & Hpos & _).
  - by repeat constructor.
  - by repeat constructor.
  - exists new, canceled, moved. split; [exact Hrun|].
    destruct Hpos as (-> & -> & _); [by vm_compute|].
    split; [by vm_compute|done].
Defined.

(** C5: move matching returns, and it accounts for every unmatched slot:
    the unmatched old slots are as many as the canceled and the moved
    results together, the unmatched new slots as many as the new and the
    moved results together. *)
Theorem move_matching_conservation sub (old_slots new_slots : list TalkSlot) tz :
  Forall placed old_slots → Forall placed new_slots →
  ∃ new canceled moved,
    _handle_submission_move sub old_slots new_slots tz
      = Ok (new, canceled, moved)
    ∧ length (unmatched (filter_submission sub old_slots)
                        (filter_submission sub new_slots))
      = (length canceled + length moved)%nat
    ∧ length (unmatched (filter_submission sub new_slots)
                        (filter_submission sub old_slots))
      = (length new + length moved)%nat.
Proof.
  intros Hold Hnew.
  destruct (handle_submission_move_spec sub old_slots new_slots tz Hold Hnew)
    as (moved & Hrun & HF & Hlen).
  eexists _, _, moved. split; [exact Hrun|].
  apply Forall2_length in HF. rewrite length_zip_with in HF.
  rewrite !length_take. rewrite !length_drop in *. lia.
Qed.

(** Submission 4 goes from three slots to two, one of them unchanged: two
    unmatched old slots, one canceled and one moved. *)
Lemma move_matching_conservation_witness :
  ∃ new canceled moved,
    _handle_submission_move 4
      [sample_slot 1 1 4 1 9; sample_slot 2 1 4 1 14; sample_slot 3 1 4 2 16]
      [sample_slot 4 2 4 1 9; sample_slot 5 2 4 3 15] "UTC"
    = Ok (new, canceled, moved)
    ∧ (2 = length canceled + length moved)%nat
    ∧ (1 = length new + length moved)%nat.
Proof.
  apply (move_matching_conservation 4
    [sample_slot 1 1 4 1 9; sample_slot 2 1 4 1 14; sample_slot 3 1 4 2 16]
    [sample_slot 4 2 4 1 9; sample_slot 5 2 4 3 15] "UTC");
    by repeat constructor.
Defined.

(** ** The comparison *)

Lemma elem_of_slot_set (slots : list TalkSlot) (entry : SlotKey) :
  entry ∈ slot_set slots ↔ ∃ slot, slot ∈ slots ∧ slot_key slot = entry.
Proof.
  unfold slot_set. rewrite elem_of_list_to_set, list_elem_of_fmap.
  split; intros (slot & H1 & H2); exists slot; by split.
Qed.

Lemma elem_of_submission_set (slots : list TalkSlot) (sub : Z) :
  sub ∈ submission_set slots
  ↔ ∃ slot, slot ∈ slots ∧ submission_pk (submission slot) = sub.
Proof.
  unfold submission_set. rewrite elem_of_list_to_set, list_elem_of_fmap.
  split; intros (slot & H1 & H2); exists slot; by split.
Qed.

Lemma scheduled_talks_placed st schedule :
  Forall placed (scheduled_talks st schedule).
Proof.
  apply Forall_forall. intros slot Hin. unfold scheduled_talks in Hin.
  apply list_elem_of_filter in Hin as [(Hr & Hs & _) _]. by split.
Qed.

Lemma unmatched_canceled_from sub (old_slots new_slots : list TalkSlot) slot :
  slot ∈ unmatched (filter_submission sub old_slots)
                   (filter_submission sub new_slots) →
  canceled_from old_slots new_slots slot
  ∧ submission_pk (submission slot) = sub.
Proof.
  intros (H1 & H2 & H3)%elem_of_unmatched_submission.
  repeat split; try done. by rewrite elem_of_slot_set.
Qed.

Lemma unmatched_new_from sub (old_slots new_slots : list TalkSlot) slot :
  slot ∈ unmatched (filter_submission sub new_slots)
                   (filter_submission sub old_slots) →
  new_from old_slots new_slots slot
  ∧ submission_pk (submission slot) = sub.
Proof.
  intros (H1 & H2 & H3)%elem_of_unmatched_submission.
  repeat split; try done. by rewrite elem_of_slot_set.
Qed.

Lemma Forall2_zip_moved_from sub (old_slots new_slots : list TalkSlot) tz
    (l k : list TalkSlot) moved :
  Forall (λ slot, canceled_from old_slots new_slots slot
                  ∧ submission_pk (submission slot) = sub) l →
  Forall (λ slot, new_from old_slots new_slots slot
                  ∧ submission_pk (submission slot) = sub) k →
  Forall2 (λ move m, move_record tz move = Ok m) (zip l k) moved →
  Forall (moved_from old_slots new_slots tz) moved.
Proof.
  intros Hl. revert k moved.
  induction Hl as [|x l [Hx Hxs] Hl IH]; intros k moved Hk HF.
  - simpl in HF. inversion HF. constructor.
  - destruct Hk as [|y k [Hy Hys] Hk]; simpl in HF; inversion HF; subst.
    + constructor.
    + constructor; [|by eapply IH].
      exists x, y. split; [done|]. split; [done|]. split; [congruence|done].
Qed.

(** What a call of move matching returns comes from slots that differ. *)
Lemma handle_submission_move_sound sub (old_slots new_slots : list TalkSlot) tz
    new canceled moved :
  _handle_submission_move sub old_slots new_slots tz = Ok (new, canceled, moved) →
  Forall (new_from old_slots new_slots) new
  ∧ Forall (canceled_from old_slots new_slots) canceled
  ∧ Forall (moved_from old_slots new_slots tz) moved.
Proof.
  intros (-> & -> & HF & _)%handle_submission_move_inv.
  set (A := unmatched (filter_submission sub old_slots)
                      (filter_submission sub new_slots)) in *.
  set (B := unmatched (filter_submission sub new_slots)
                      (filter_submission sub old_slots)) in *.
  assert (HA : Forall (λ slot, canceled_from old_slots new_slots slot
                               ∧ submission_pk (submission slot) = sub) A).
  { apply Forall_forall. intros x Hx. by apply unmatched_canceled_from. }
  assert (HB : Forall (λ slot, new_from old_slots new_slots slot
                               ∧ submission_pk (submission slot) = sub) B).
  { apply Forall_forall. intros x Hx. by apply unmatched_new_from. }
  split; [|split].
  - apply Forall_take. eapply Forall_impl; [exact HB|]. by intros ? [? _].
  - apply Forall_take. eapply Forall_impl; [exact HA|]. by intros ? [? _].
  - eapply Forall2_zip_moved_from; [| |exact HF]; by apply Forall_drop.
Qed.

Lemma extend_result_sound (old_slots new_slots : list TalkSlot) tz result
    new canceled moved :
  diff_sound old_slots new_slots tz result →
  Forall (new_from old_slots new_slots) new →
  Forall (canceled_from old_slots new_slots) canceled →
  Forall (moved_from old_slots new_slots tz) moved →
  diff_sound old_slots new_slots tz (extend_result result new canceled moved).
Proof.
  intros (H1 & H2 & H3) Hn Hc Hm. unfold diff_sound. simpl.
  rewrite !Forall_app. tauto.
Qed.

Lemma classify_removed_sound (old_slots new_slots : list TalkSlot) tz
    result sub result' :
  diff_sound old_slots new_slots tz result →
  classify_removed old_slots new_slots (submission_set new_slots) tz result sub
    = Ok result' →
  diff_sound old_slots new_slots tz result'.
Proof.
  intros Hs H. unfold classify_removed in H.
  destruct (decide (sub ∉ submission_set new_slots)) as [Hnot|Hin].
  - inversion H; subst. apply extend_result_sound; try done.
    apply Forall_forall. intros slot [Hslot Hsub]%elem_of_filter_submission.
    split; [done|]. rewrite elem_of_slot_set. intros (other & Ho & Hk).
    apply Hnot. apply elem_of_submission_set. exists other. split; [done|].
    unfold slot_key in Hk. congruence.
  - apply bind_Ok_inv in H as ([[new canceled] moved] & Hrun & H).
    inversion H; subst.
    apply handle_submission_move_sound in Hrun as (? & ? & ?).
    by apply extend_result_sound.
Qed.

Lemma classify_added_sound (old_slots new_slots : list TalkSlot) tz
    result sub result' :
  diff_sound old_slots new_slots tz result →
  classify_added old_slots new_slots (submission_set old_slots) tz result sub
    = Ok result' →
  diff_sound old_slots new_slots tz result'.
Proof.
  intros Hs H. unfold classify_added in H.
  destruct (decide (sub ∉ submission_set old_slots)) as [Hnot|Hin].
  - inversion H; subst. apply extend_result_sound; try done.
    apply Forall_forall. intros slot [Hslot Hsub]%elem_of_filter_submission.
    split; [done|]. rewrite elem_of_slot_set. intros (other & Ho & Hk).
    apply Hnot. apply elem_of_submission_set. exists other. split; [done|].
    unfold slot_key in Hk. congruence.
  - apply bind_Ok_inv in H as ([[new canceled] moved] & Hrun & H).
    inversion H; subst.
    apply handle_submission_move_sound in Hrun as (? & ? & ?).
    by apply extend_result_sound.
Qed.

Lemma classify_removed_total (old_slots new_slots : list TalkSlot)
    new_submissions tz result sub :
  Forall placed old_slots → Forall placed new_slots →
  ∃ result',
    classify_removed old_slots new_slots new_submissions tz result sub
      = Ok result'.
Proof.
  intros Hold Hnew. unfold classify_removed.
  destruct (decide (sub ∉ new_submissions)); [eauto|].
  destruct (handle_submission_move_spec sub old_slots new_slots tz Hold Hnew)
    as (moved & -> & _). simpl. eauto.
Qed.

Lemma classify_added_total (old_slots new_slots : list TalkSlot)
    old_submissions tz result sub :
  Forall placed old_slots → Forall placed new_slots →
  ∃ result',
    classify_added old_slots new_slots old_submissions tz result sub
      = Ok result'.
Proof.
  intros Hold Hnew. unfold classify_added.
  destruct (decide (sub ∉ old_submissions)); [eauto|].
  destruct (handle_submission_move_spec sub old_slots new_slots tz Hold Hnew)
    as (moved & -> & _). simpl. eauto.
Qed.

(** A loop over the entries runs through, and keeps what every
    classification keeps. *)
Lemma loop_total (classify : ChangeSet → Z → Result ChangeSet)
    (P : ChangeSet → Prop) (entries : list SlotKey) vars :
  (∀ result sub, P result → ∃ result', classify result sub = Ok result'
                                       ∧ P result') →
  P vars.1 →
  ∃ vars', for_each (loop_body classify) entries vars = Ok vars' ∧ P vars'.1.
Proof.
  intros Hc Hv.
  apply (for_each_total (loop_body classify) (λ v, P v.1)); [|done].
  intros [result handled] entry _ Hr. unfold loop_body.
  destruct (decide (key_submission entry ∈ handled)); [eauto|].
  destruct (Hc result (key_submission entry) Hr) as (result' & -> & Hr').
  simpl. eauto.
Qed.

(** The comparison never raises, and with a predecessor every entry of its
    result comes from slots that differ between the two schedules. *)
Lemma compare_sound st schedule previous :
  previous_schedule st schedule = Some previous →
  ∃ changes,
    compare_schedule_with_predecessor st schedule = Ok changes
    ∧ action changes = "update"
    ∧ count changes = (length (new_talks changes)
                       + length (canceled_talks changes)
                       + length (moved_talks changes))%nat
    ∧ diff_sound (scheduled_talks st previous) (scheduled_talks st schedule)
        (tz schedule) changes.
Proof.
  intros Hprev. unfold compare_schedule_with_predecessor. rewrite Hprev.
  set (old_slots := scheduled_talks st previous).
  set (new_slots := scheduled_talks st schedule).
  pose proof (scheduled_talks_placed st previous) as Hold.
  pose proof (scheduled_talks_placed st schedule) as Hnew.
  fold old_slots in Hold. fold new_slots in Hnew.
  pose (P := λ r : ChangeSet,
          action r = "update" ∧ diff_sound old_slots new_slots (tz schedule) r).
  destruct (loop_total
    (classify_removed old_slots new_slots (submission_set new_slots) (tz schedule))
    P (elements (slot_set old_slots ∖ slot_set new_slots))
    (initial_result, ∅)) as (vars1 & -> & Hact1 & H1).
  { intros result sub [Ha Hs].
    destruct (classify_removed_total old_slots new_slots
                (submission_set new_slots) (tz schedule) result sub Hold Hnew)
      as (result' & Hr).
    exists result'. split; [done|]. split.
    - unfold classify_removed in Hr. destruct (decide _).
      + by inversion Hr; subst.
      + apply bind_Ok_inv in Hr as ([[? ?] ?] & _ & Hr). by inversion Hr; subst.
    - by eapply classify_removed_sound. }
  { split; [done|]. by repeat split; simpl; constructor. }
  simpl.
  destruct (loop_total
    (classify_added old_slots new_slots (submission_set old_slots) (tz schedule))
    P (elements (slot_set new_slots ∖ slot_set old_slots))
    vars1) as (vars2 & -> & Hact2 & H2).
  { intros result sub [Ha Hs].
    destruct (classify_added_total old_slots new_slots
                (submission_set old_slots) (tz schedule) result sub Hold Hnew)
      as (result' & Hr).
    exists result'. split; [done|]. split.
    - unfold classify_added in Hr. destruct (decide _).
      + by inversion Hr; subst.
      + apply bind_Ok_inv in Hr as ([[? ?] ?] & _ & Hr). by inversion Hr; subst.
    - by eapply classify_added_sound. }
  { by split. }
  simpl. exists (set_count vars2.1). repeat split; try done; apply H2.
Qed.

(** C7: the comparison of a schedule without a predecessor returns the
    change set with action "create", whatever the schedule holds: its count
    is 0 and its three lists are empty. *)
Theorem first_release_is_create st schedule :
  previous_schedule st schedule = None →
  compare_schedule_with_predecessor st schedule
  = Ok {| count := 0; action := "create";
          new_talks := []; canceled_talks := []; moved_talks := [] |}.
Proof.
  intros Hprev. unfold compare_schedule_with_predecessor. by rewrite Hprev.
Qed.

(** The released version of the sample store is the first of its event. *)
Lemma first_release_is_create_witness :
  compare_schedule_with_predecessor sample_store sample_released
  = Ok {| count := 0; action := "create";
          new_talks := []; canceled_talks := []; moved_talks := [] |}.
Proof. apply first_release_is_create. by vm_compute. Defined.

(** C6: in a comparison with a predecessor, a slot whose
    (submission, room, start) is in both scheduled sets is neither in
    [new_talks] nor in [canceled_talks], and every entry of [moved_talks]
    is built from an old slot whose key the new set lacks and a new slot
    whose key the old set lacks; when the two sets are equal the lists are
    empty and the count is 0. *)
Theorem unchanged_slots_not_in_diff st schedule previous :
  previous_schedule st schedule = Some previous →
  let old_slots := scheduled_talks st previous in
  let new_slots := scheduled_talks st schedule in
  ∃ changes,
    compare_schedule_with_predecessor st schedule = Ok changes
    ∧ (∀ slot, (slot_key slot ∈ slot_set old_slots) →
               (slot_key slot ∈ slot_set new_slots) →
               (slot ∉ new_talks changes) ∧ (slot ∉ canceled_talks changes))
    ∧ (∀ m, (m ∈ moved_talks changes) →
         ∃ old_slot new_slot,
           old_slot ∈ old_slots ∧ new_slot ∈ new_slots
           ∧ (slot_key old_slot ∉ slot_set new_slots)
           ∧ (slot_key new_slot ∉ slot_set old_slots)
           ∧ move_record (tz schedule) (old_slot, new_slot) = Ok m)
    ∧ (slot_set old_slots = slot_set new_slots →
       changes = {| count := 0; action := "update"; new_talks := [];
                    canceled_talks := []; moved_talks := [] |}).
Proof.
  intros Hprev old_slots new_slots.
  destruct (compare_sound st schedule previous Hprev)
    as (changes & Hrun & _ & _ & Hnew & Hcanceled & Hmoved).
  fold old_slots new_slots in Hnew, Hcanceled, Hmoved.
  exists changes. split; [done|]. split; [|split].
  - intros slot Hold Hnew'. split; intros Hin.
    + eapply Forall_forall in Hnew as [_ Hk]; [|exact Hin]. done.
    + eapply Forall_forall in Hcanceled as [_ Hk]; [|exact Hin]. done.
  - intros m Hin.
    eapply Forall_forall in Hmoved as (o & n & [? ?] & [? ?] & _ & ?);
      [|exact Hin].
    exists o, n. done.
  - intros Heq. unfold compare_schedule_with_predecessor in Hrun.
    rewrite Hprev in Hrun. fold old_slots new_slots in Hrun.
    rewrite Heq, difference_diag_L, elements_empty in Hrun. simpl in Hrun.
    by inversion Hrun.
Qed.

(** In the sample store the placement of submission 1 is unchanged and is
    in neither list. *)
Lemma unchanged_slots_not_in_diff_witness :
  ∃ changes,
    compare_schedule_with_predecessor sample_store sample_draft = Ok changes
    ∧ (sample_slot 3 2 1 1 10 ∉ new_talks changes)
    ∧ (sample_slot 1 1 1 1 10 ∉ canceled_talks changes).
Proof.
  destruct (unchanged_slots_not_in_diff sample_store sample_draft sample_released)
    as (changes & Hrun & Hout & _); [by vm_compute|].
  exists changes. split; [exact Hrun|]. split.
  - apply (Hout (sample_slot 3 2 1 1 10)); by vm_compute.
  - apply (Hout (sample_slot 1 1 1 1 10)); by vm_compute.
Defined.

(** ** Each submission is classified once *)

(** A loop over the entries is a loop over the submissions it classifies,
    and it leaves every submission of its entries handled. *)
Lemma loop_classified (classify : ChangeSet → Z → Result ChangeSet)
    (entries : list SlotKey) (result : ChangeSet) (handled : gset Z) :
  for_each (loop_body classify) entries (result, handled)
  = for_each classify (classified handled entries) result
    ≫= λ result', Ok (result',
                       handled ∪ list_to_set (key_submission <$> entries)).
Proof.
  revert result handled.
  induction entries as [|entry rest IH]; intros result handled; simpl.
  - f_equal. f_equal. set_solver.
  - destruct (decide (key_submission entry ∈ handled)) as [Hin|Hnin]; simpl.
    + rewrite IH. destruct (for_each _ _ _); simpl; [|done].
      f_equal. f_equal. set_solver.
    + destruct (classify result (key_submission entry)) as [r|e]; simpl; [|done].
      rewrite IH. destruct (for_each _ _ _); simpl; [|done].
      f_equal. f_equal. set_solver.
Qed.

Lemma elem_of_classified handled (entries : list SlotKey) sub :
  sub ∈ classified handled entries
  ↔ (sub ∉ handled) ∧ ∃ entry, entry ∈ entries ∧ key_submission entry = sub.
Proof.
  revert handled. induction entries as [|entry rest IH]; intros handled; simpl.
  - split; [by intros ?%elem_of_nil|]. by intros [_ (? & ?%elem_of_nil & _)].
  - destruct (decide (key_submission entry ∈ handled)) as [Hin|Hnin].
    + rewrite IH. split.
      * intros [? (e & ? & ?)]. split; [done|]. exists e. split; [by right|done].
      * intros [? (e & [->|?]%elem_of_cons & ?)]; [congruence|]. eauto.
    + rewrite elem_of_cons, IH. split.
      * intros [->|[Hs (e & ? & ?)]].
        -- split; [done|]. exists entry. split; [by left|done].
        -- split; [set_solver|]. exists e. split; [by right|done].
      * intros [Hs (e & [->|?]%elem_of_cons & He)]; [by left|].
        destruct (decide (sub = key_submission entry)) as [->|Hne]; [by left|].
        right. split; [set_solver|]. eauto.
Qed.

Lemma NoDup_classified handled (entries : list SlotKey) :
  NoDup (classified handled entries).
Proof.
  revert handled. induction entries as [|entry rest IH]; intros handled; simpl.
  - constructor.
  - destruct (decide (key_submission entry ∈ handled)); [apply IH|].
    constructor; [|apply IH].
    rewrite elem_of_classified. intros [Hn _]. set_solver.
Qed.

Lemma handle_submission_move_adds sub (old_slots new_slots : list TalkSlot) tz
    new canceled moved :
  _handle_submission_move sub old_slots new_slots tz = Ok (new, canceled, moved) →
  Forall (λ slot, submission_pk (submission slot) = sub) (new ++ canceled)
  ∧ (NoDup new_slots → NoDup new)
  ∧ (NoDup old_slots → NoDup canceled).
Proof.
  intros (-> & -> & _)%handle_submission_move_inv.
  split; [|split].
  - apply Forall_app. split; apply Forall_take, Forall_forall; intros x Hx.
    + by apply unmatched_new_from in Hx as [_ ?].
    + by apply unmatched_canceled_from in Hx as [_ ?].
  - intros Hnd. eapply sublist_NoDup; [|apply sublist_take].
    by apply NoDup_filter, NoDup_filter.
  - intros Hnd. eapply sublist_NoDup; [|apply sublist_take].
    by apply NoDup_filter, NoDup_filter.
Qed.

Lemma classify_removed_adds (old_slots new_slots : list TalkSlot) subs tz :
  adds_slots_of (classify_removed old_slots new_slots subs tz)
                old_slots new_slots.
Proof.
  intros result sub result' H. unfold classify_removed in H.
  destruct (decide (sub ∉ subs)).
  - inversion H; subst. exists [], (filter_submission sub old_slots), [].
    split; [done|]. split; [|split].
    + apply Forall_forall.
      by intros x [_ ?]%elem_of_filter_submission.
    + intros _. constructor.
    + intros Hnd. by apply NoDup_filter.
  - apply bind_Ok_inv in H as ([[new canceled] moved] & Hrun & H).
    inversion H; subst. exists new, canceled, moved. split; [done|].
    by eapply handle_submission_move_adds.
Qed.

Lemma classify_added_adds (old_slots new_slots : list TalkSlot) subs tz :
  adds_slots_of (classify_added old_slots new_slots subs tz)
                old_slots new_slots.
Proof.
  intros result sub result' H. unfold classify_added in H.
  destruct (decide (sub ∉ subs)).
  - inversion H; subst. exists (filter_submission sub new_slots), [], [].
    split; [done|]. split; [|split].
    + rewrite app_nil_r. apply Forall_forall.
      by intros x [_ ?]%elem_of_filter_submission.
    + intros Hnd. by apply NoDup_filter.
    + intros _. constructor.
  - apply bind_Ok_inv in H as ([[new canceled] moved] & Hrun & H).
    inversion H; subst. exists new, canceled, moved. split; [done|].
    by eapply handle_submission_move_adds.
Qed.

Lemma for_each_classified_slots (classify : ChangeSet → Z → Result ChangeSet)
    (old_slots new_slots : list TalkSlot) (subs done' : list Z) result result' :
  adds_slots_of classify old_slots new_slots →
  NoDup subs → (∀ sub, sub ∈ subs → sub ∉ done') →
  classified_slots old_slots new_slots done' result →
  for_each classify subs result = Ok result' →
  classified_slots old_slots new_slots (done' ++ subs) result'.
Proof.
  intros Hadds. revert done' result.
  induction subs as [|sub subs IH]; intros done' result Hnd Hfresh Hres Hrun;
    simpl in Hrun.
  - inversion Hrun; subst. by rewrite app_nil_r.
  - apply bind_Ok_inv in Hrun as (r1 & Hstep & Hrun).
    apply NoDup_cons in Hnd as [Hsub Hnd].
    replace (done' ++ sub :: subs) with ((done' ++ [sub]) ++ subs)
      by (by rewrite <- app_assoc).
    eapply (IH (done' ++ [sub]) r1); [done| | |exact Hrun]; clear IH Hrun.
    + intros x Hx [Hd| ->%list_elem_of_singleton]%elem_of_app; [|done].
      eapply Hfresh; [by right|done].
    + destruct (Hadds _ _ _ Hstep) as (new & canceled & moved & -> & Hof & Hn & Hc).
      destruct Hres as (Hin & Hrn & Hrc).
      apply Forall_app in Hof as [Hofn Hofc].
      apply Forall_app in Hin as [Hinn Hinc].
      assert (Hsub' : sub ∉ done') by (apply Hfresh; by left).
      split; [|split]; simpl.
      * rewrite !Forall_app. repeat split.
        -- eapply Forall_impl; [exact Hinn|]. intros ? ?. apply elem_of_app. by left.
        -- eapply Forall_impl; [exact Hofn|]. intros ? ->. apply elem_of_app.
           right. by left.
        -- eapply Forall_impl; [exact Hinc|]. intros ? ?. apply elem_of_app. by left.
        -- eapply Forall_impl; [exact Hofc|]. intros ? ->. apply elem_of_app.
           right. by left.
      * intros Hnew. apply NoDup_app. split; [auto|]. split; [|auto].
        intros x Hx1 Hx2.
        eapply Forall_forall in Hinn; [|exact Hx1].
        eapply Forall_forall in Hofn; [|exact Hx2]. congruence.
      * intros Hold. apply NoDup_app. split; [auto|]. split; [|auto].
        intros x Hx1 Hx2.
        eapply Forall_forall in Hinc; [|exact Hx1].
        eapply Forall_forall in Hofc; [|exact Hx2]. congruence.
Qed.

Lemma NoDup_scheduled_talks st schedule :
  NoDup (talks st) → NoDup (scheduled_talks st schedule).
Proof. intros H. unfold scheduled_talks, talks_of. by apply NoDup_filter, NoDup_filter. Qed.

(** C9: in a comparison with a predecessor, the first loop classifies the
    submissions [first_pass] and the second loop the submissions
    [second_pass]: together they hold each submission of the symmetric
    difference of the two key sets once and nothing else, so that no
    submission is classified by both loops or twice by one.  The result is
    that of one classification per submission of the two lists, every slot
    in [new_talks] or [canceled_talks] belongs to one of these submissions,
    and, the slot table holding each slot once, no slot is listed twice. *)
Theorem each_submission_classified_once st schedule previous :
  previous_schedule st schedule = Some previous →
  let old_slots := scheduled_talks st previous in
  let new_slots := scheduled_talks st schedule in
  let moved_or_missing := slot_set old_slots ∖ slot_set new_slots in
  let moved_or_new := slot_set new_slots ∖ slot_set old_slots in
  let first_pass := classified ∅ (elements moved_or_missing) in
  let second_pass :=
    classified (list_to_set (key_submission <$> elements moved_or_missing))
               (elements moved_or_new) in
  NoDup (first_pass ++ second_pass)
  ∧ (∀ sub, sub ∈ first_pass ++ second_pass
            ↔ ∃ entry, (entry ∈ moved_or_missing ∨ entry ∈ moved_or_new)
                       ∧ key_submission entry = sub)
  ∧ ∃ result1 result2,
      for_each (classify_removed old_slots new_slots
                  (submission_set new_slots) (tz schedule))
               first_pass initial_result = Ok result1
      ∧ for_each (classify_added old_slots new_slots
                    (submission_set old_slots) (tz schedule))
                 second_pass result1 = Ok result2
      ∧ compare_schedule_with_predecessor st schedule = Ok (set_count result2)
      ∧ Forall (λ slot, submission_pk (submission slot)
                        ∈ first_pass ++ second_pass)
               (new_talks result2 ++ canceled_talks result2)
      ∧ (NoDup (talks st) →
         NoDup (new_talks result2) ∧ NoDup (canceled_talks result2)).
Proof.
  intros Hprev old_slots new_slots moved_or_missing moved_or_new
    first_pass second_pass.
  assert (Hfirst : ∀ sub, sub ∈ first_pass
            ↔ ∃ entry, entry ∈ moved_or_missing ∧ key_submission entry = sub).
  { intros sub. unfold first_pass. rewrite elem_of_classified. split.
    - intros [_ (e & He & Hs)]. exists e. by rewrite <- elem_of_elements.
    - intros (e & He & Hs). split; [apply not_elem_of_empty|].
      exists e. by rewrite elem_of_elements. }
  assert (Hsecond : ∀ sub, sub ∈ second_pass
            ↔ (sub ∉ first_pass)
              ∧ ∃ entry, entry ∈ moved_or_new ∧ key_submission entry = sub).
  { intros sub. unfold second_pass.
    rewrite elem_of_classified, elem_of_list_to_set, list_elem_of_fmap, Hfirst.
    split.
    - intros [Hn (e & He & Hs)]. split.
      + intros (e' & He' & Hs'). apply Hn. exists e'.
        by rewrite elem_of_elements.
      + exists e. by rewrite <- elem_of_elements.
    - intros [Hn (e & He & Hs)]. split.
      + intros (e' & Hs' & He'). apply Hn. exists e'.
        by rewrite <- elem_of_elements.
      + exists e. by rewrite elem_of_elements. }
  assert (Hnodup : NoDup (first_pass ++ second_pass)).
  { apply NoDup_app. split; [apply NoDup_classified|].
    split; [|apply NoDup_classified].
    intros sub H1 H2. by apply Hsecond in H2 as [? _]. }
  split; [exact Hnodup|]. split.
  { intros sub. rewrite elem_of_app, Hfirst, Hsecond. split.
    - intros [(e & ? & ?)|[_ (e & ? & ?)]]; exists e; auto.
    - intros (e & [He|He] & Hs); [left; by exists e|].
      destruct (decide (sub ∈ first_pass)) as [Hin|Hnin].
      + left. by apply Hfirst.
      + right. split; [done|]. by exists e. }
  destruct (compare_sound st schedule previous Hprev) as (changes & Hrun & _).
  unfold compare_schedule_with_predecessor in Hrun. rewrite Hprev in Hrun.
  fold old_slots new_slots moved_or_missing moved_or_new in Hrun.
  rewrite loop_classified in Hrun. fold first_pass in Hrun.
  destruct (for_each _ first_pass initial_result) as [result1|e] eqn:H1;
    [|done].
  simpl in Hrun. rewrite (left_id_L ∅ (∪)) in Hrun.
  rewrite loop_classified in Hrun. fold second_pass in Hrun.
  destruct (for_each _ second_pass result1) as [result2|e] eqn:H2; [|done].
  simpl in Hrun. exists result1, result2.
  split; [done|]. split; [done|].
  split; [unfold compare_schedule_with_predecessor; rewrite Hprev;
          fold old_slots new_slots moved_or_missing moved_or_new;
          rewrite loop_classified; fold first_pass; rewrite H1; simpl;
          rewrite (left_id_L ∅ (∪)), loop_classified; fold second_pass;
          by rewrite H2|].
  apply NoDup_app in Hnodup as (Hnd1 & Hdisj & Hnd2).
  assert (Hc1 : classified_slots old_slots new_slots ([] ++ first_pass) result1).
  { eapply for_each_classified_slots;
      [apply classify_removed_adds|done| |  |exact H1].
    - intros ? _. apply not_elem_of_nil.
    - repeat split; simpl; constructor. }
  assert (Hc2 : classified_slots old_slots new_slots
                  (first_pass ++ second_pass) result2).
  { eapply for_each_classified_slots;
      [apply classify_added_adds|done| |exact Hc1|exact H2].
    intros sub Hs2 Hs1. by eapply Hdisj. }
  destruct Hc2 as (Hall & Hn & Hc). split; [exact Hall|].
  intros Htalks. split; [apply Hn|apply Hc]; by apply NoDup_scheduled_talks.
Qed.

(** In the sample store submission 2 is classified by the first loop and
    submission 3 by the second. *)
Lemma each_submission_classified_once_witness :
  NoDup ([2] ++ [3])
  ∧ ∃ result2,
      compare_schedule_with_predecessor sample_store sample_draft
      = Ok (set_count result2)
      ∧ Forall (λ slot, submission_pk (submission slot) ∈ [2] ++ [3])
               (new_talks result2 ++ canceled_talks result2).
Proof.
  destruct (each_submission_classified_once sample_store sample_draft
              sample_released)
    as (Hnd & _ & r1 & r2 & _ & _ & Hrun & Hall & _); [by vm_compute|].
  split; [exact Hnd|]. exists r2. split; [exact Hrun|exact Hall].
Defined.

(** ** The notification builder *)

Lemma compare_count st schedule changes :
  compare_schedule_with_predecessor st schedule = Ok changes →
  count changes = (length (new_talks changes)
                   + length (canceled_talks changes)
                   + length (moved_talks changes))%nat.
Proof.
  intros Hrun.
  destruct (previous_schedule st schedule) as [previous|] eqn:Hprev.
  - destruct (compare_sound st schedule previous Hprev)
      as (changes' & Hrun' & _ & Hc & _). congruence.
  - unfold compare_schedule_with_predecessor in Hrun. rewrite Hprev in Hrun.
    by inversion Hrun; subst.
Qed.

(** C8: what the builder does with a change set of action "update".  The
    count equals the number of canceled talks exactly when there are no new
    and no moved talks, and the builder then returns the empty list [[]],
    which is not a dictionary.  In every other case it raises [NameError]
    on [defaultdict], which [selectors.py] does not import, before any
    entry is built.  So it never returns a dictionary for an update. *)
Theorem notification_builder_outcome st schedule changes :
  compare_schedule_with_predecessor st schedule = Ok changes →
  action changes = "update" →
  (count changes = length (canceled_talks changes)
   ↔ new_talks changes = [] ∧ moved_talks changes = [])
  ∧ (count changes = length (canceled_talks changes) →
     speakers_with_changed_slots st schedule = Ok EmptyList)
  ∧ (count changes ≠ length (canceled_talks changes) →
     speakers_with_changed_slots st schedule
     = Raise {| exc_class := NameError;
                exc_msg := "name 'defaultdict' is not defined" |})
  ∧ (∀ entries,
       speakers_with_changed_slots st schedule ≠ Ok (SpeakersDict entries)).
Proof.
  intros Hrun Haction.
  pose proof (compare_count _ _ _ Hrun) as Hcount.
  assert (Hlist : count changes = length (canceled_talks changes) →
            speakers_with_changed_slots st schedule = Ok EmptyList).
  { intros Heq. unfold speakers_with_changed_slots. rewrite Hrun. simpl.
    rewrite decide_False by (rewrite Haction; discriminate).
    by rewrite decide_True. }
  assert (Hraise : count changes ≠ length (canceled_talks changes) →
            speakers_with_changed_slots st schedule
            = Raise {| exc_class := NameError;
                       exc_msg := "name 'defaultdict' is not defined" |}).
  { intros Hne. unfold speakers_with_changed_slots. rewrite Hrun. simpl.
    rewrite decide_False by (rewrite Haction; discriminate).
    by rewrite decide_False. }
  split; [|split; [exact Hlist|split; [exact Hraise|]]].
  - rewrite Hcount. split.
    + intros H. split; apply length_zero_iff_nil; lia.
    + intros [-> ->]. simpl. lia.
  - intros entries.
    destruct (decide (count changes = length (canceled_talks changes)))
      as [Heq|Hne].
    + by rewrite (Hlist Heq).
    + by rewrite (Hraise Hne).
Qed.

(** The draft of the sample store holds a new talk: the builder raises
    where the speaker of submission 3 should get an entry.  In the store
    whose draft only lost a talk it returns the list. *)
Lemma notification_builder_outcome_witness :
  speakers_with_changed_slots sample_store sample_draft
  = Raise {| exc_class := NameError;
             exc_msg := "name 'defaultdict' is not defined" |}
  ∧ speakers_with_changed_slots sample_store_canceled sample_draft
    = Ok EmptyList.
Proof.
  split.
  - destruct (compare_schedule_with_predecessor sample_store sample_draft)
      as [changes|] eqn:Hcompare; [|by vm_compute in Hcompare].
    apply (notification_builder_outcome _ _ changes Hcompare);
      vm_compute in Hcompare; inversion Hcompare; done.
  - destruct (compare_schedule_with_predecessor sample_store_canceled
                sample_draft)
      as [changes|] eqn:Hcompare; [|by vm_compute in Hcompare].
    apply (notification_builder_outcome _ _ changes Hcompare);
      vm_compute in Hcompare; inversion Hcompare; done.
Defined.

(** ** The predecessor *)

#[global] Instance desc_published_total nf : Total (desc_published nf).
Proof.
  intros a b. unfold desc_published.
  destruct (published a), (published b), nf; auto; lia.
Qed.

#[global] Instance desc_published_trans nf : Transitive (desc_published nf).
Proof.
  intros a b c. unfold desc_published.
  destruct (published a), (published b), (published c), nf; auto; try lia;
    try discriminate.
Qed.

(** [order_by(...).first()]: nothing for an empty query set, otherwise a
    row that the order lists no later than any row. *)
Lemma head_merge_sort {A} (R : relation A) `{∀ x y, Decision (R x y)}
    `{!Total R, !Transitive R} (l : list A) :
  match head (merge_sort R l) with
  | Some x => x ∈ l ∧ ∀ y, y ∈ l → R x y
  | None => l = []
  end.
Proof.
  pose proof (StronglySorted_merge_sort R l) as Hsorted.
  pose proof (merge_sort_Permutation R l) as Hperm.
  destruct (merge_sort R l) as [|x l'] eqn:E; simpl.
  - symmetry. by apply Permutation_nil_l.
  - split.
    + rewrite <- Hperm. by left.
    + intros y Hy. rewrite <- Hperm in Hy.
      apply elem_of_cons in Hy as [->|Hy].
      * by destruct (total R x x).
      * apply StronglySorted_inv in Hsorted as [_ Hall].
        by eapply Forall_forall in Hall.
Qed.

Lemma elem_of_candidates st self other :
  other ∈ filter (λ s, pk s ≠ pk self) (schedules_of st (event self))
  ↔ candidate st self other.
Proof.
  unfold schedules_of, candidate. rewrite !list_elem_of_filter. tauto.
Qed.

(** C10: for a schedule with a publication time [p], the predecessor is a
    schedule of the same event, other than the schedule itself, published
    before [p] and no earlier than any other such schedule, and there is
    none exactly when no other schedule of the event was published before
    [p].  For a schedule without a publication time that is the only such
    schedule of its event, the predecessor is another schedule of the event
    published no earlier than any other, and there is none exactly when the
    event has no other schedule. *)
Theorem previous_schedule_resolution st self :
  (∀ p, published self = Some p →
     match previous_schedule st self with
     | Some previous =>
         candidate st self previous
         ∧ ∃ q, published previous = Some q ∧ q < p
                ∧ ∀ other r, candidate st self other →
                             published other = Some r → r < p → r ≤ q
     | None => ∀ other, candidate st self other → ¬ published_lt p other
     end)
  ∧ (published self = None →
     (∀ other, candidate st self other → published other ≠ None) →
     match previous_schedule st self with
     | Some previous =>
         candidate st self previous
         ∧ ∃ q, published previous = Some q
                ∧ ∀ other r, candidate st self other →
                             published other = Some r → r ≤ q
     | None => ∀ other, ¬ candidate st self other
     end).
Proof.
  split.
  - intros p Hp. unfold previous_schedule. rewrite Hp.
    set (queryset := filter (published_lt p) _).
    pose proof (head_merge_sort (desc_published (nulls_first st)) queryset)
      as Hhead.
    destruct (head _) as [previous|].
    + destruct Hhead as [Hin Hbest]. unfold queryset in Hin.
      apply list_elem_of_filter in Hin as [Hlt Hcand].
      apply elem_of_candidates in Hcand. split; [done|].
      unfold published_lt in Hlt.
      destruct (published previous) as [q|] eqn:Hq; [|done].
      exists q. split; [done|]. split; [done|].
      intros other r Hother Hr Hrp.
      assert (Ho : other ∈ queryset).
      { apply list_elem_of_filter. split.
        - unfold published_lt. by rewrite Hr.
        - by apply elem_of_candidates. }
      apply Hbest in Ho. unfold desc_published in Ho. by rewrite Hq, Hr in Ho.
    + intros other Hother Hlt.
      assert (Ho : other ∈ queryset).
      { apply list_elem_of_filter. split; [done|]. by apply elem_of_candidates. }
      rewrite Hhead in Ho. by apply elem_of_nil in Ho.
  - intros Hp Hsingle. unfold previous_schedule. rewrite Hp.
    set (queryset := filter _ _).
    pose proof (head_merge_sort (desc_published (nulls_first st)) queryset)
      as Hhead.
    destruct (head _) as [previous|].
    + destruct Hhead as [Hin Hbest].
      apply elem_of_candidates in Hin. split; [done|].
      destruct (published previous) as [q|] eqn:Hq;
        [|by apply Hsingle in Hin].
      exists q. split; [done|]. intros other r Hother Hr.
      assert (Ho : other ∈ queryset) by (by apply elem_of_candidates).
      apply Hbest in Ho. unfold desc_published in Ho. by rewrite Hq, Hr in Ho.
    + intros other Hother.
      assert (Ho : other ∈ queryset) by (by apply elem_of_candidates).
      rewrite Hhead in Ho. by apply elem_of_nil in Ho.
Qed.

(** With [v1] published at 5 and [v2] at 9, the predecessor of [v2] is
    [v1], and the predecessor of the draft is [v2]. *)
Lemma previous_schedule_resolution_witness :
  previous_schedule sample_store_two sample_second = Some sample_released
  ∧ previous_schedule sample_store_two sample_draft = Some sample_second
  ∧ (∀ other r, candidate sample_store_two sample_draft other →
                published other = Some r → r ≤ 9).
Proof.
  split; [by vm_compute|]. split; [by vm_compute|].
  destruct (previous_schedule_resolution sample_store_two sample_draft)
    as [_ Hdraft].
  assert (Hprev : previous_schedule sample_store_two sample_draft
                  = Some sample_second) by (by vm_compute).
  rewrite Hprev in Hdraft.
  destruct Hdraft as (_ & q & Hq & Hbest); [done| |].
  - intros other (Hin & _ & Hpk).
    apply elem_of_cons in Hin as [->|Hin]; [done|].
    apply elem_of_cons in Hin as [->|Hin]; [done|].
    apply list_elem_of_singleton in Hin as ->. done.
  - by inversion Hq; subst.
Defined.

(** ** The version manager *)

Lemma bind_run {A B} (m : DB A) (f : A → DB B) (st : Store) :
  (m ≫= f) st
  = match m st with
    | (Ok a, st') => f a st'
    | (Raise e, st') => (Raise e, st')
    end.
Proof. done. Qed.

Lemma save_published_version_run self st :
  stored st self → ¬ name_in_use st self (default EmptyString (version self)) →
  version self ≠ None →
  save_published_version self st
  = (Ok (), with_schedules (updated_row self <$> schedules st) st).
Proof.
  intros (row & Hrow & Hpk) Hfree Hversion. unfold save_published_version.
  rewrite decide_True by (apply Exists_exists; eauto).
  rewrite decide_False; [done|].
  intros (r & Hr & Hrpk & Hconflict)%Exists_exists.
  apply Exists_exists in Hconflict as (o & Ho & Hopk & Hoev & Hov & _).
  apply list_elem_of_fmap in Hr as (r0 & -> & Hr0).
  apply list_elem_of_fmap in Ho as (o0 & -> & Ho0).
  unfold updated_row in *.
  destruct (decide (pk r0 = pk self)) as [Hr0pk|Hr0pk]; simpl in *; [|done].
  destruct (decide (pk o0 = pk self)) as [Ho0pk|Ho0pk]; simpl in *;
    [congruence|].
  apply Hfree. exists r0, o0. repeat split; try done; try congruence.
  rewrite Hov. by destruct (version self).
Qed.

Lemma filter_all {A} (P : A → Prop) `{∀ x, Decision (P x)} (l : list A) :
  Forall P l → filter P l = l.
Proof.
  induction 1 as [|x l Hx _ IH]; [done|].
  by rewrite filter_cons_True, IH.
Qed.

Lemma filter_none {A} (P : A → Prop) `{∀ x, Decision (P x)} (l : list A) :
  Forall (λ x, ¬ P x) l → filter P l = [].
Proof.
  induction 1 as [|x l Hx _ IH]; [done|].
  by rewrite filter_cons_False.
Qed.

Lemma elem_of_assign_ids next (objs : list TalkSlot) slot :
  slot ∈ assign_ids next objs → ∃ obj id, obj ∈ objs ∧ slot = set_slot_id id obj.
Proof.
  revert next. induction objs as [|obj objs IH]; intros next; simpl.
  - by intros ?%elem_of_nil.
  - intros [->|Hin]%elem_of_cons.
    + exists obj, next. split; [by left|done].
    + destruct (IH _ Hin) as (o & id & Ho & ->). exists o, id.
      split; [by right|done].
Qed.

Lemma schedule_id_assign_ids next (objs : list TalkSlot) (sid : Z) slot :
  Forall (λ obj, schedule_id obj = sid) objs →
  slot ∈ assign_ids next objs → schedule_id slot = sid.
Proof.
  intros Hall (obj & id & Hobj & ->)%elem_of_assign_ids. simpl.
  eapply Forall_forall in Hall; [exact Hall|exact Hobj].
Qed.

(** C2: a freeze of a stored, unversioned schedule under a valid name that
    is free never reaches the two statements that set the visibility.  The
    three checks and the save pass; the creation of the new draft evaluates
    [Schedule], which [actions.py] does not bind, and raises [NameError].
    The exception leaves the atomic block, and the store, with the
    visibility of every slot, is what it was before the call. *)
Theorem freeze_stops_before_visibility st schedule name user notify :
  name ∉ ["wip"; "latest"] → name ≠ EmptyString →
  ¬ truthy (version schedule) →
  stored st schedule → ¬ name_in_use st schedule name →
  freeze_schedule schedule name user notify st
  = (Raise {| exc_class := NameError;
              exc_msg := "name 'Schedule' is not defined" |}, st).
Proof.
  intros Hres Hname Hver Hstored Hfree.
  unfold freeze_schedule, atomic.
  rewrite decide_False by done. rewrite decide_False by done.
  rewrite decide_False by done.
  rewrite bind_run. unfold now at 1, query at 1.
  rewrite bind_run.
  rewrite save_published_version_run; [|done|done|done].
  rewrite bind_run. unfold log_action at 1, modify at 1.
  rewrite bind_run. reflexivity.
Qed.

(** The draft of the mixed store holds a confirmed slot with a start that
    is hidden; after the call to freeze it still is. *)
Lemma freeze_stops_before_visibility_witness :
  ∃ e st',
    freeze_schedule sample_draft "v1" 7 false sample_store_mixed
    = (Raise e, st')
    ∧ exc_class e = NameError
    ∧ sample_hidden ∈ talks_of st' sample_draft
    ∧ start sample_hidden ≠ None
    ∧ state (submission sample_hidden) = CONFIRMED
    ∧ is_visible sample_hidden = false.
Proof.
  eexists _, _. split.
  - apply (freeze_stops_before_visibility sample_store_mixed sample_draft
             "v1" 7 false).
    + by_computation.
    + done.
    + by vm_compute.
    + exists sample_draft. split; [by_computation|done].
    + intros (row & other & _ & Hother & _ & Hne & _).
      by apply list_elem_of_singleton in Hother as ->.
  - split; [done|]. split; [by_computation|]. by vm_compute.
Defined.

(** C3, as amended: a freeze with one of the reserved names "wip" and
    "latest", of a schedule whose version is a string that is not empty, or
    with an empty name, raises Python's plain [Exception] with the message
    of the first of the three checks that fails, in this order, and leaves
    the store as it was: schedules, with their versions and publication
    times, slots, log, mails and exports. *)
Theorem freeze_rejected_unchanged st schedule name user notify :
  name = EmptyString ∨ name ∈ ["wip"; "latest"] ∨ truthy (version schedule) →
  freeze_schedule schedule name user notify st
  = (Raise {| exc_class := Exception;
              exc_msg :=
                if decide (name ∈ ["wip"; "latest"]) then
                  "Cannot use reserved name " ++ dquote ++ name ++ dquote
                  ++ " for schedule version."
                else if decide (truthy (version schedule)) then
                  "Cannot freeze schedule version: already versioned as "
                  ++ dquote ++ default EmptyString (version schedule)
                  ++ dquote ++ "."
                else
                  "Cannot create schedule version without a version name." |},
     st).
Proof.
  intros Hbad. unfold freeze_schedule, atomic.
  destruct (decide (name ∈ ["wip"; "latest"])) as [Hres|Hres]; [done|].
  destruct (decide (truthy (version schedule))) as [Hver|Hver]; [done|].
  destruct (decide (name = EmptyString)) as [Hname|Hname]; [done|].
  by destruct Hbad as [?|[?|?]].
Qed.

(** The released version of the sample store cannot be frozen again. *)
Lemma freeze_rejected_unchanged_witness :
  freeze_schedule sample_released "v2" 7 true sample_store
  = (Raise {| exc_class := Exception;
              exc_msg := "Cannot freeze schedule version: already versioned as "
                         ++ dquote ++ "v1" ++ dquote ++ "." |},
     sample_store).
Proof.
  rewrite (freeze_rejected_unchanged sample_store sample_released "v2" 7 true);
    [done|].
  right. right. by vm_compute.
Defined.

(** C3 as stated fails twice.  Freezing under the reserved name "wip"
    raises [Exception], which is not [ValidationError]; and a schedule
    whose version is set to the empty string passes the check of the
    version: the freeze goes on and fails later, on the unbound name, with
    [NameError]. *)
Lemma freeze_rejection_counterexample :
  raised_class (freeze_schedule sample_draft "wip" 7 true sample_store).1
  = Some Exception
  ∧ Exception ≠ ValidationError
  ∧ version sample_blank ≠ None
  ∧ raised_class
      (freeze_schedule sample_blank "v2" 7 false sample_store_blank).1
    = Some NameError
  ∧ NameError ≠ ValidationError.
Proof. repeat split; by vm_compute. Qed.

(** ** Unfreeze *)

Lemma NoDup_fmap_eq {A B} (f : A → B) (l : list A) x y :
  NoDup (f <$> l) → x ∈ l → y ∈ l → f x = f y → x = y.
Proof.
  induction l as [|z l IH]; simpl; intros Hnd Hx Hy Hf.
  - by apply elem_of_nil in Hx.
  - apply NoDup_cons in Hnd as [Hz Hnd].
    apply elem_of_cons in Hx as [->|Hx]; apply elem_of_cons in Hy as [->|Hy].
    + done.
    + exfalso. apply Hz. rewrite Hf. by apply list_elem_of_fmap_2.
    + exfalso. apply Hz. rewrite <- Hf. by apply list_elem_of_fmap_2.
    + by apply IH.
Qed.

Lemma wip_schedule_inv ev st old_wip st1 :
  wip_schedule ev st = (Ok old_wip, st1) →
  st1 = st ∧ old_wip ∈ schedules st ∧ version old_wip = None
  ∧ event_id (event old_wip) = event_id ev.
Proof.
  unfold wip_schedule, query. intros H.
  destruct (filter _ (schedules_of st ev)) as [|s rest] eqn:E; [done|].
  inversion H. subst s st1. split; [done|].
  assert (Hin : old_wip ∈ filter (λ s, version s = None) (schedules_of st ev))
    by (rewrite E; by left).
  apply list_elem_of_filter in Hin as [Hv Hin].
  unfold schedules_of in Hin. apply list_elem_of_filter in Hin as [He Hin].
  done.
Qed.

Lemma elem_of_union_rows st (a b : list TalkSlot) slot :
  (∀ rows, union_order st rows ≡ₚ rows) →
  slot ∈ union_rows st a b ↔ slot ∈ a ∨ slot ∈ b.
Proof.
  intros Hperm. unfold union_rows.
  by rewrite Hperm, elem_of_remove_dups, elem_of_app.
Qed.

Lemma NoDup_union_rows st (a b : list TalkSlot) :
  (∀ rows, union_order st rows ≡ₚ rows) → NoDup (union_rows st a b).
Proof.
  intros Hperm. unfold union_rows. rewrite Hperm. apply NoDup_remove_dups.
Qed.

(** What an unfreeze that passes its check returns and leaves behind. *)
Lemma unfreeze_run st self user old_wip :
  truthy (version self) →
  wip_schedule (event self) st = (Ok old_wip, st) →
  let new_wip := {| pk := next_schedule_pk st; event := event self;
                    version := None; published := None |} in
  let submission_ids :=
    (λ slot, submission_pk (submission slot)) <$> talks_of st self in
  let sources :=
    union_rows st (exclude_submissions submission_ids (talks_of st old_wip))
               (talks_of st self) in
  ∃ st',
    unfreeze self user st = (Ok (self, new_wip), st')
    ∧ schedules st'
      = filter (λ s, pk s ≠ pk old_wip) (schedules st ++ [new_wip])
    ∧ talks st'
      = filter (λ slot, schedule_id slot ≠ pk old_wip)
          (talks st ++ assign_ids (next_slot_id st)
                          (copy_to_schedule new_wip <$> sources))
    ∧ next_schedule_pk st' = next_schedule_pk st + 1.
Proof.
  intros Hver Hwip new_wip submission_ids sources.
  unfold unfreeze, atomic.
  rewrite decide_False by (by intros ?).
  rewrite bind_run, Hwip.
  rewrite bind_run. unfold create_schedule at 1. fold new_wip.
  rewrite bind_run. unfold query at 1.
  rewrite bind_run. unfold bulk_create at 1, modify at 1.
  rewrite bind_run. unfold delete_talks_of at 1, modify at 1.
  rewrite bind_run. unfold delete_schedule at 1, modify at 1.
  eexists. split; [reflexivity|]. done.
Qed.

Lemma slot_content_assign_ids next (new_schedule : Schedule)
    (sources : list TalkSlot) :
  slot_content <$> assign_ids next (copy_to_schedule new_schedule <$> sources)
  = slot_content <$> sources.
Proof.
  revert next. induction sources as [|src sources IH]; intros next; [done|].
  simpl. by rewrite IH.
Qed.

(** C4, as amended.  For a stored schedule whose version is a string that
    is not empty, in a well-formed store whose event has a working draft
    [old_wip], on a backend that returns each row of a union once, unfreeze
    returns the schedule itself and a new working draft.  The slots of the
    new draft are copies of [sources], in the order the backend returns
    them: the slots of [old_wip] whose submission has no slot in the
    schedule together with all slots of the schedule, each once.  [old_wip]
    is no longer a schedule of the store and has no slots; the schedule is
    still stored and its slots are the same.  In particular the new draft
    holds the content of the slots of the version and of those slots of
    the old draft whose submission the version has no slot for, such as
    slots added to the draft after the release. *)
Theorem unfreeze_restores_draft st self user old_wip :
  truthy (version self) → self ∈ schedules st → store_wf st →
  (∀ rows, union_order st rows ≡ₚ rows) →
  wip_schedule (event self) st = (Ok old_wip, st) →
  let new_wip := {| pk := next_schedule_pk st; event := event self;
                    version := None; published := None |} in
  let submission_ids :=
    (λ slot, submission_pk (submission slot)) <$> talks_of st self in
  let sources :=
    union_rows st (exclude_submissions submission_ids (talks_of st old_wip))
               (talks_of st self) in
  ∃ st',
    unfreeze self user st = (Ok (self, new_wip), st')
    ∧ NoDup sources
    ∧ (∀ src, src ∈ sources
              ↔ (src ∈ talks_of st old_wip
                 ∧ submission_pk (submission src) ∉ submission_ids)
                ∨ src ∈ talks_of st self)
    ∧ talks_of st' new_wip
      = assign_ids (next_slot_id st) (copy_to_schedule new_wip <$> sources)
    ∧ (∀ s, s ∈ schedules st'
            ↔ (s ∈ schedules st ∧ pk s ≠ pk old_wip) ∨ s = new_wip)
    ∧ talks_of st' old_wip = []
    ∧ self ∈ schedules st'
    ∧ talks_of st' self = talks_of st self
    ∧ (∀ c, (c ∈ slot_content <$> talks_of st' new_wip)
            ↔ (c ∈ slot_content <$> talks_of st self)
              ∨ ∃ a, (a ∈ talks_of st old_wip)
                     ∧ (submission_pk (submission a) ∉ submission_ids)
                     ∧ c = slot_content a).
Proof.
  intros Hver Hself (Hnd & Hspk & Htpk) Hperm Hwip
         new_wip submission_ids sources.
  destruct (unfreeze_run st self user old_wip Hver Hwip)
    as (st' & Hrun & Hschedules & Htalks & _).
  fold new_wip submission_ids sources in Hrun, Hschedules, Htalks.
  apply wip_schedule_inv in Hwip as (_ & Hold & Hvold & _).
  assert (Hold_lt : pk old_wip < next_schedule_pk st)
    by (by eapply Forall_forall in Hspk).
  assert (Hself_lt : pk self < next_schedule_pk st)
    by (by eapply Forall_forall in Hspk).
  assert (Hne : pk self ≠ pk old_wip).
  { intros Heq.
    assert (self = old_wip) by (by eapply (NoDup_fmap_eq pk)).
    subst. by rewrite Hvold in Hver. }
  assert (Hcopies : ∀ slot,
            slot ∈ assign_ids (next_slot_id st)
                     (copy_to_schedule new_wip <$> sources) →
            schedule_id slot = next_schedule_pk st).
  { intros slot. apply schedule_id_assign_ids, Forall_forall.
    by intros obj (src & -> & _)%list_elem_of_fmap. }
  assert (Hsources : ∀ src, src ∈ sources
            ↔ (src ∈ talks_of st old_wip
               ∧ submission_pk (submission src) ∉ submission_ids)
              ∨ src ∈ talks_of st self).
  { intros src. unfold sources. rewrite elem_of_union_rows by done.
    unfold exclude_submissions. rewrite list_elem_of_filter. tauto. }
  assert (Hnew : talks_of st' new_wip
            = assign_ids (next_slot_id st)
                (copy_to_schedule new_wip <$> sources)).
  { unfold talks_of. rewrite Htalks. simpl pk.
    rewrite list_filter_filter, filter_app.
    rewrite (filter_none _ (talks st)).
    2:{ eapply Forall_impl; [exact Htpk|]. simpl. lia. }
    rewrite (filter_all _ (assign_ids _ _)); [done|].
    apply Forall_forall. intros slot ->%Hcopies. split; [done|lia]. }
  exists st'. split; [exact Hrun|].
  split; [by apply NoDup_union_rows|]. split; [exact Hsources|].
  split; [exact Hnew|]. split; [|split; [|split; [|split]]].
  - intros s. rewrite Hschedules, list_elem_of_filter, elem_of_app.
    rewrite list_elem_of_singleton. split.
    + intros [Hpk [Hin| ->]]; [left|right]; done.
    + intros [[Hin Hpk]| ->]; [split; [done|by left]|].
      split; [simpl; lia|by right].
  - unfold talks_of. rewrite Htalks, list_filter_filter.
    apply filter_none, Forall_forall. intros ? _. tauto.
  - rewrite Hschedules. apply list_elem_of_filter. split; [done|].
    apply elem_of_app. by left.
  - unfold talks_of. rewrite Htalks, list_filter_filter, filter_app.
    rewrite (filter_none _ (assign_ids _ _)).
    2:{ apply Forall_forall. intros slot ->%Hcopies. lia. }
    rewrite app_nil_r. apply list_filter_iff. intros slot. split; [tauto|].
    intros Hs. split; [done|congruence].
  - intros c. rewrite Hnew, slot_content_assign_ids.
    rewrite !list_elem_of_fmap. split.
    + intros (src & -> & [[Hsrc Hid]|Hsrc]%Hsources); [right|left]; eauto.
    + intros [(src & -> & Hsrc)|(a & Ha & Hid & ->)].
      * exists src. split; [done|]. apply Hsources. by right.
      * exists a. split; [done|]. apply Hsources. by left.
Qed.

Lemma unfreeze_keeps_wf st self user old_wip :
  truthy (version self) → store_wf st →
  wip_schedule (event self) st = (Ok old_wip, st) →
  ∃ result st',
    unfreeze self user st = (Ok result, st') ∧ store_wf st'.
Proof.
  intros Hver (Hnd & Hspk & Htpk) Hwip.
  destruct (unfreeze_run st self user old_wip Hver Hwip)
    as (st' & Hrun & Hschedules & Htalks & Hnext).
  eexists _, st'. split; [exact Hrun|]. split; [|split].
  - rewrite Hschedules.
    eapply sublist_NoDup; [|apply fmap_sublist, sublist_filter].
    rewrite fmap_app. apply NoDup_app. split; [done|].
    split; [|apply NoDup_singleton].
    intros x (s & Hx & Hs)%list_elem_of_fmap Hx2%list_elem_of_singleton.
    eapply Forall_forall in Hspk; [|exact Hs]. simpl in *. lia.
  - rewrite Hnext, Hschedules. apply Forall_forall.
    intros s [_ [Hs| ->%list_elem_of_singleton]%elem_of_app]%list_elem_of_filter.
    + eapply Forall_forall in Hspk; [|exact Hs]. simpl in Hspk. lia.
    + simpl. lia.
  - rewrite Hnext, Htalks. apply Forall_forall.
    intros slot [_ [Hs|Hs]%elem_of_app]%list_elem_of_filter.
    + eapply Forall_forall in Htpk; [|exact Hs]. simpl in Htpk. lia.
    + apply (schedule_id_assign_ids _ _ (next_schedule_pk st)) in Hs; [lia|].
      apply Forall_forall. by intros obj (src & -> & _)%list_elem_of_fmap.
Qed.

(** Unfreezing [v1] in the sample store replaces the draft: the new draft
    holds the content of the two slots of [v1] and of the draft's slot of
    submission 3, which [v1] does not have, and not the draft's own
    placement of submission 2 in room 3. *)
Lemma unfreeze_restores_draft_witness :
  ∃ new_wip st',
    unfreeze sample_released None sample_store
    = (Ok (sample_released, new_wip), st')
    ∧ pk <$> schedules st' = [1; 3]
    ∧ talks_of st' sample_draft = []
    ∧ (slot_content (sample_slot 1 1 1 1 10)
       ∈ slot_content <$> talks_of st' new_wip)
    ∧ (slot_content (sample_slot 2 1 2 2 11)
       ∈ slot_content <$> talks_of st' new_wip)
    ∧ (slot_content (sample_slot 5 2 3 1 12)
       ∈ slot_content <$> talks_of st' new_wip)
    ∧ (slot_content (sample_slot 4 2 2 3 11)
       ∉ slot_content <$> talks_of st' new_wip)
    ∧ length (talks_of st' new_wip) = 3%nat.
Proof.
  destruct (unfreeze_restores_draft sample_store sample_released None
              sample_draft)
    as (st' & Hrun & Hnd & Hsources & Hnew & Hschedules & Hold & Hself
        & Hkept & Hcontent).
  - by vm_compute.
  - by_computation.
  - by_computation.
  - intros rows. apply merge_sort_Permutation.
  - done.
  - eexists _, st'. split; [exact Hrun|].
    assert (Hst : st' = (unfreeze sample_released None sample_store).2)
      by (by rewrite Hrun).
    split; [rewrite Hst; by vm_compute|].
    split; [exact Hold|].
    split; [apply Hcontent; left; by_computation|].
    split; [apply Hcontent; left; by_computation|].
    split.
    { apply Hcontent. right. exists (sample_slot 5 2 3 1 12).
      split; [by_computation|]. split; [|done]. by_computation. }
    split.
    { intros Hin. apply Hcontent in Hin as [Hin|(a & Ha & Hid & Heq)].
      - apply (bool_decide_pack _) in Hin. by vm_compute in Hin.
      - assert (Hall : Forall
          (λ a, ¬ ((submission_pk (submission a)
                    ∉ (λ slot, submission_pk (submission slot))
                      <$> talks_of sample_store sample_released)
                   ∧ slot_content (sample_slot 4 2 2 3 11) = slot_content a))
          (talks_of sample_store sample_draft)) by by_computation.
        eapply Forall_forall in Hall; [|exact Ha]. by apply Hall. }
    rewrite Hst. by vm_compute.
Defined.

(** C4 as stated fails for a version that is set but empty: the schedule
    counts as not released and unfreeze raises. *)
Lemma unfreeze_blank_version_counterexample :
  version sample_blank ≠ None
  ∧ sample_blank ∈ schedules sample_store_blank
  ∧ raised_class (unfreeze sample_blank None sample_store_blank).1
    = Some Exception.
Proof. split; [done|]. split; [by left|by vm_compute]. Qed.

(** * Further properties *)

(** ** The comparison loses no change *)

Lemma zip_partner_l {A B} (l : list A) (k : list B) x :
  x ∈ l → length l = length k → ∃ y, (x, y) ∈ zip l k.
Proof.
  revert k. induction l as [|a l IH]; intros k Hx Hlen.
  - by apply elem_of_nil in Hx.
  - destruct k as [|b k]; [done|]. simpl.
    apply elem_of_cons in Hx as [->|Hx].
    + exists b. by left.
    + destruct (IH k Hx) as (y & Hy); [by inversion Hlen|].
      exists y. by right.
Qed.

Lemma zip_partner_r {A B} (l : list A) (k : list B) y :
  y ∈ k → length l = length k → ∃ x, (x, y) ∈ zip l k.
Proof.
  revert l. induction k as [|b k IH]; intros l Hy Hlen.
  - by apply elem_of_nil in Hy.
  - destruct l as [|a l]; [done|]. simpl.
    apply elem_of_cons in Hy as [->|Hy].
    + exists a. by left.
    + destruct (IH l Hy) as (x & Hx); [by inversion Hlen|].
      exists x. by right.
Qed.

Lemma Forall2_elem_l {A B} (R : A → B → Prop) (l : list A) (k : list B) x :
  Forall2 R l k → x ∈ l → ∃ y, y ∈ k ∧ R x y.
Proof.
  induction 1 as [|a b l k Hab _ IH]; intros Hx.
  - by apply elem_of_nil in Hx.
  - apply elem_of_cons in Hx as [->|Hx].
    + exists b. split; [by left|done].
    + destruct (IH Hx) as (y & Hy & HR). exists y. split; [by right|done].
Qed.

Lemma result_le_refl result : result_le result result.
Proof. by repeat split. Qed.

Lemma result_le_trans r1 r2 r3 :
  result_le r1 r2 → result_le r2 r3 → result_le r1 r3.
Proof. intros (?&?&?) (?&?&?). repeat split; auto. Qed.

Lemma result_le_extend result new canceled moved :
  result_le result (extend_result result new canceled moved).
Proof. repeat split; simpl; intros x Hx; apply elem_of_app; by left. Qed.

Lemma result_le_set_count result : result_le result (set_count result).
Proof. by repeat split. Qed.

(** The lists only grow along a loop, and each submission of the loop was
    classified from some result the final one includes. *)
Lemma for_each_result_le (classify : ChangeSet → Z → Result ChangeSet)
    (old_slots new_slots : list TalkSlot) (subs : list Z) result result' :
  adds_slots_of classify old_slots new_slots →
  for_each classify subs result = Ok result' →
  result_le result result'
  ∧ ∀ sub, sub ∈ subs →
      ∃ r1 r2, classify r1 sub = Ok r2 ∧ result_le r2 result'.
Proof.
  intros Hadds. revert result.
  induction subs as [|s subs IH]; intros result Hrun; simpl in Hrun.
  - inversion Hrun; subst. split; [apply result_le_refl|].
    by intros ? ?%elem_of_nil.
  - apply bind_Ok_inv in Hrun as (r1 & Hstep & Hrun).
    destruct (IH _ Hrun) as [Hle Hall].
    destruct (Hadds _ _ _ Hstep) as (n & c & m & Hr1 & _).
    split.
    + eapply result_le_trans; [|exact Hle]. rewrite Hr1.
      apply result_le_extend.
    + intros sub [->|Hin]%elem_of_cons; [|by apply Hall].
      by exists result, r1.
Qed.

Lemma elem_of_first_pass (moved_or_missing : gset SlotKey) sub :
  sub ∈ classified ∅ (elements moved_or_missing)
  ↔ ∃ entry, entry ∈ moved_or_missing ∧ key_submission entry = sub.
Proof.
  rewrite elem_of_classified. split.
  - intros [_ (e & He & Hs)]. exists e. by rewrite <- elem_of_elements.
  - intros (e & He & Hs). split; [apply not_elem_of_empty|].
    exists e. by rewrite elem_of_elements.
Qed.

Lemma elem_of_second_pass (moved_or_missing moved_or_new : gset SlotKey) sub :
  sub ∈ classified (list_to_set (key_submission <$> elements moved_or_missing))
                   (elements moved_or_new)
  ↔ (sub ∉ classified ∅ (elements moved_or_missing))
    ∧ ∃ entry, entry ∈ moved_or_new ∧ key_submission entry = sub.
Proof.
  rewrite elem_of_classified, elem_of_list_to_set, list_elem_of_fmap,
    elem_of_first_pass.
  split.
  - intros [Hn (e & He & Hs)]. split.
    + intros (e' & He' & Hs'). apply Hn. exists e'.
      by rewrite elem_of_elements.
    + exists e. by rewrite <- elem_of_elements.
  - intros [Hn (e & He & Hs)]. split.
    + intros (e' & Hs' & He'). apply Hn. exists e'.
      by rewrite <- elem_of_elements.
    + exists e. by rewrite elem_of_elements.
Qed.

(** The comparison as two runs of classifications. *)
Lemma compare_classifications st schedule previous :
  previous_schedule st schedule = Some previous →
  let old_slots := scheduled_talks st previous in
  let new_slots := scheduled_talks st schedule in
  let moved_or_missing := slot_set old_slots ∖ slot_set new_slots in
  let moved_or_new := slot_set new_slots ∖ slot_set old_slots in
  ∃ result1 result2,
    for_each (classify_removed old_slots new_slots
                (submission_set new_slots) (tz schedule))
             (classified ∅ (elements moved_or_missing)) initial_result
    = Ok result1
    ∧ for_each (classify_added old_slots new_slots
                  (submission_set old_slots) (tz schedule))
               (classified
                  (list_to_set (key_submission <$> elements moved_or_missing))
                  (elements moved_or_new)) result1
      = Ok result2
    ∧ compare_schedule_with_predecessor st schedule = Ok (set_count result2).
Proof.
  intros Hprev old_slots new_slots moved_or_missing moved_or_new.
  destruct (compare_sound st schedule previous Hprev) as (changes & Hrun & _).
  unfold compare_schedule_with_predecessor in *. rewrite Hprev in *.
  fold old_slots new_slots moved_or_missing moved_or_new in Hrun |- *.
  rewrite loop_classified in Hrun |- *.
  destruct (for_each _ (classified ∅ _) initial_result) as [result1|e] eqn:H1;
    [|done].
  simpl in Hrun |- *. rewrite (left_id_L ∅ (∪)) in Hrun |- *.
  rewrite loop_classified in Hrun |- *.
  destruct (for_each _ _ result1) as [result2|e] eqn:H2; [|done].
  exists result1, result2. split; [done|]. split; [exact H2|]. done.
Qed.

(** A slot that move matching works on is canceled, new, or one side of a
    move. *)
Lemma handle_submission_move_covers sub (old_slots new_slots : list TalkSlot)
    tz new canceled moved :
  _handle_submission_move sub old_slots new_slots tz = Ok (new, canceled, moved) →
  (∀ o, o ∈ unmatched (filter_submission sub old_slots)
                      (filter_submission sub new_slots) →
        o ∈ canceled
        ∨ ∃ n m, n ∈ new_slots ∧ m ∈ moved ∧ move_record tz (o, n) = Ok m)
  ∧ (∀ n, n ∈ unmatched (filter_submission sub new_slots)
                        (filter_submission sub old_slots) →
          n ∈ new
          ∨ ∃ o m, o ∈ old_slots ∧ m ∈ moved ∧ move_record tz (o, n) = Ok m).
Proof.
  intros (-> & -> & HF & Hlen)%handle_submission_move_inv.
  set (A := unmatched (filter_submission sub old_slots)
                      (filter_submission sub new_slots)) in *.
  set (B := unmatched (filter_submission sub new_slots)
                      (filter_submission sub old_slots)) in *.
  set (d := Z.to_nat (Z.of_nat (length A) - Z.of_nat (length B))) in *.
  set (d' := Z.to_nat (- (Z.of_nat (length A) - Z.of_nat (length B)))) in *.
  split.
  - intros o Ho. rewrite <- (take_drop d A) in Ho.
    apply elem_of_app in Ho as [Ho|Ho]; [by left|]. right.
    destruct (zip_partner_l _ (drop d' B) o Ho Hlen) as (n & Hpair).
    destruct (Forall2_elem_l _ _ _ _ HF Hpair) as (m & Hm & Hrec).
    exists n, m. split; [|done].
    apply elem_of_zip_r in Hpair. apply subseteq_drop in Hpair.
    by apply elem_of_unmatched_submission in Hpair as [? _].
  - intros n Hn. rewrite <- (take_drop d' B) in Hn.
    apply elem_of_app in Hn as [Hn|Hn]; [by left|]. right.
    destruct (zip_partner_r (drop d A) _ n Hn Hlen) as (o & Hpair).
    destruct (Forall2_elem_l _ _ _ _ HF Hpair) as (m & Hm & Hrec).
    exists o, m. split; [|done].
    apply elem_of_zip_l in Hpair. apply subseteq_drop in Hpair.
    by apply elem_of_unmatched_submission in Hpair as [? _].
Qed.

Lemma slot_key_submission (slot : TalkSlot) :
  key_submission (slot_key slot) = submission_pk (submission slot).
Proof. done. Qed.

Lemma classify_removed_covers (old_slots new_slots : list TalkSlot) tz
    result sub result' :
  classify_removed old_slots new_slots (submission_set new_slots) tz result sub
    = Ok result' →
  (∀ o, o ∈ old_slots → submission_pk (submission o) = sub →
        (slot_key o ∉ slot_set new_slots) →
        o ∈ canceled_talks result'
        ∨ ∃ n m, n ∈ new_slots ∧ m ∈ moved_talks result'
                 ∧ move_record tz (o, n) = Ok m)
  ∧ (∀ n, n ∈ new_slots → submission_pk (submission n) = sub →
          (slot_key n ∉ slot_set old_slots) →
          n ∈ new_talks result'
          ∨ ∃ o m, o ∈ old_slots ∧ m ∈ moved_talks result'
                   ∧ move_record tz (o, n) = Ok m).
Proof.
  intros H. unfold classify_removed in H.
  destruct (decide (sub ∉ submission_set new_slots)) as [Hnot|Hin].
  - inversion H; subst result'. simpl. split.
    + intros o Ho Hsub _. left. apply elem_of_app. right.
      by apply elem_of_filter_submission.
    + intros n Hn Hsub _. exfalso. apply Hnot.
      apply elem_of_submission_set. by exists n.
  - apply bind_Ok_inv in H as ([[new canceled] moved] & Hrun & H).
    inversion H; subst result'. simpl.
    apply handle_submission_move_covers in Hrun as [Hold Hnew]. split.
    + intros o Ho Hsub Hkey. destruct (Hold o) as [Hc|(n & m & ? & ? & ?)].
      * apply elem_of_unmatched_submission. repeat split; try done.
        by rewrite elem_of_slot_set in Hkey.
      * left. apply elem_of_app. by right.
      * right. exists n, m. split; [done|]. split; [|done].
        apply elem_of_app. by right.
    + intros n Hn Hsub Hkey. destruct (Hnew n) as [Hc|(o & m & ? & ? & ?)].
      * apply elem_of_unmatched_submission. repeat split; try done.
        by rewrite elem_of_slot_set in Hkey.
      * left. apply elem_of_app. by right.
      * right. exists o, m. split; [done|]. split; [|done].
        apply elem_of_app. by right.
Qed.

Lemma classify_added_covers (old_slots new_slots : list TalkSlot) tz
    result sub result' :
  classify_added old_slots new_slots (submission_set old_slots) tz result sub
    = Ok result' →
  ∀ n, n ∈ new_slots → submission_pk (submission n) = sub →
       (slot_key n ∉ slot_set old_slots) →
       n ∈ new_talks result'
       ∨ ∃ o m, o ∈ old_slots ∧ m ∈ moved_talks result'
                ∧ move_record tz (o, n) = Ok m.
Proof.
  intros H. unfold classify_added in H.
  destruct (decide (sub ∉ submission_set old_slots)) as [Hnot|Hin].
  - inversion H; subst result'. simpl.
    intros n Hn Hsub _. left. apply elem_of_app. right.
    by apply elem_of_filter_submission.
  - apply bind_Ok_inv in H as ([[new canceled] moved] & Hrun & H).
    inversion H; subst result'. simpl.
    apply handle_submission_move_covers in Hrun as [_ Hnew].
    intros n Hn Hsub Hkey. destruct (Hnew n) as [Hc|(o & m & ? & ? & ?)].
    + apply elem_of_unmatched_submission. repeat split; try done.
      by rewrite elem_of_slot_set in Hkey.
    + left. apply elem_of_app. by right.
    + right. exists o, m. split; [done|]. split; [|done].
      apply elem_of_app. by right.
Qed.

(** Every slot whose key the other schedule lacks has an entry. *)
Lemma compare_covers st schedule previous :
  previous_schedule st schedule = Some previous →
  let old_slots := scheduled_talks st previous in
  let new_slots := scheduled_talks st schedule in
  ∃ changes,
    compare_schedule_with_predecessor st schedule = Ok changes
    ∧ (∀ o, o ∈ old_slots → (slot_key o ∉ slot_set new_slots) →
          o ∈ canceled_talks changes
          ∨ ∃ n m, n ∈ new_slots ∧ m ∈ moved_talks changes
                   ∧ move_record (tz schedule) (o, n) = Ok m)
    ∧ (∀ n, n ∈ new_slots → (slot_key n ∉ slot_set old_slots) →
          n ∈ new_talks changes
          ∨ ∃ o m, o ∈ old_slots ∧ m ∈ moved_talks changes
                   ∧ move_record (tz schedule) (o, n) = Ok m).
Proof.
  intros Hprev old_slots new_slots.
  destruct (compare_classifications st schedule previous Hprev)
    as (r1 & r2 & H1 & H2 & Hrun).
  fold old_slots new_slots in H1, H2.
  destruct (for_each_result_le _ old_slots new_slots _ _ _
              (classify_removed_adds _ _ _ _) H1) as [_ Hall1].
  destruct (for_each_result_le _ old_slots new_slots _ _ _
              (classify_added_adds _ _ _ _) H2) as [Hle2 Hall2].
  exists (set_count r2). split; [exact Hrun|]. split.
  - intros o Ho Hkey.
    destruct (Hall1 (submission_pk (submission o)))
      as (ra & rb & Hc & (_ & Hlc & Hlm)).
    { apply elem_of_first_pass. exists (slot_key o). split; [|done].
      apply elem_of_difference. split; [|done].
      apply elem_of_slot_set. by exists o. }
    destruct Hle2 as (_ & Hlc2 & Hlm2).
    apply classify_removed_covers in Hc as [Hold _].
    destruct (Hold o Ho eq_refl Hkey) as [?|(n & m & ? & ? & ?)].
    + left. simpl. auto.
    + right. exists n, m. simpl. auto.
  - intros n Hn Hkey.
    destruct (decide (submission_pk (submission n)
                      ∈ classified ∅ (elements
                          (slot_set old_slots ∖ slot_set new_slots))))
      as [Hfirst|Hfirst].
    + destruct (Hall1 _ Hfirst) as (ra & rb & Hc & (Hln & _ & Hlm)).
      destruct Hle2 as (Hln2 & _ & Hlm2).
      apply classify_removed_covers in Hc as [_ Hnew].
      destruct (Hnew n Hn eq_refl Hkey) as [?|(o & m & ? & ? & ?)].
      * left. simpl. auto.
      * right. exists o, m. simpl. auto.
    + destruct (Hall2 (submission_pk (submission n)))
        as (ra & rb & Hc & (Hln & _ & Hlm)).
      { apply elem_of_second_pass. split; [done|].
        exists (slot_key n). split; [|done].
        apply elem_of_difference. split; [|done].
        apply elem_of_slot_set. by exists n. }
      pose proof (classify_added_covers _ _ _ _ _ _ Hc n Hn eq_refl Hkey)
        as [?|(o & m & ? & ? & ?)].
      * left. simpl. auto.
      * right. exists o, m. simpl. auto.
Qed.

Lemma previous_schedule_candidate st self previous :
  previous_schedule st self = Some previous → candidate st self previous.
Proof.
  unfold previous_schedule. intros H.
  destruct (published self) as [p|].
  - pose proof (head_merge_sort (desc_published (nulls_first st))
                  (filter (published_lt p)
                     (filter (λ s, pk s ≠ pk self)
                             (schedules_of st (event self))))) as Hh.
    rewrite H in Hh. destruct Hh as [Hin _].
    apply list_elem_of_filter in Hin as [_ Hin].
    by apply elem_of_candidates.
  - pose proof (head_merge_sort (desc_published (nulls_first st))
                  (filter (λ s, pk s ≠ pk self)
                          (schedules_of st (event self)))) as Hh.
    rewrite H in Hh. destruct Hh as [Hin _].
    by apply elem_of_candidates.
Qed.

(** X1: the comparison with a predecessor returns, and it loses no change:
    every scheduled slot of the predecessor whose (submission, room, start)
    the schedule lacks is canceled or is the old side of a move, and every
    scheduled slot of the schedule whose key the predecessor lacks is new
    or is the new side of a move. *)
Theorem diff_complete st schedule previous :
  previous_schedule st schedule = Some previous →
  ∃ changes,
    compare_schedule_with_predecessor st schedule = Ok changes
    ∧ (∀ o, o ∈ scheduled_talks st previous →
          (¬ ∃ n, n ∈ scheduled_talks st schedule ∧ slot_key n = slot_key o) →
          o ∈ canceled_talks changes
          ∨ ∃ n m, n ∈ scheduled_talks st schedule ∧ m ∈ moved_talks changes
                   ∧ move_record (tz schedule) (o, n) = Ok m)
    ∧ (∀ n, n ∈ scheduled_talks st schedule →
          (¬ ∃ o, o ∈ scheduled_talks st previous ∧ slot_key o = slot_key n) →
          n ∈ new_talks changes
          ∨ ∃ o m, o ∈ scheduled_talks st previous ∧ m ∈ moved_talks changes
                   ∧ move_record (tz schedule) (o, n) = Ok m).
Proof.
  intros Hprev.
  destruct (compare_covers st schedule previous Hprev)
    as (changes & Hrun & Hold & Hnew).
  exists changes. split; [exact Hrun|]. split.
  - intros o Ho Hkey. apply Hold; [done|]. by rewrite elem_of_slot_set.
  - intros n Hn Hkey. apply Hnew; [done|]. by rewrite elem_of_slot_set.
Qed.

(** In the sample store, the slot of submission 3 is new and the old slot
    of submission 2 is the old side of a move. *)
Lemma diff_complete_witness :
  ∃ changes,
    compare_schedule_with_predecessor sample_store sample_draft = Ok changes
    ∧ sample_slot 5 2 3 1 12 ∈ new_talks changes
    ∧ ∃ n m, m ∈ moved_talks changes
             ∧ move_record "UTC" (sample_slot 2 1 2 2 11, n) = Ok m.
Proof.
  destruct (diff_complete sample_store sample_draft sample_released)
    as (changes & Hrun & Hold & Hnew); [by vm_compute|].
  exists changes. split; [exact Hrun|].
  split.
  - clear -Hrun. vm_compute in Hrun. inversion Hrun. by left.
  - destruct (Hold (sample_slot 2 1 2 2 11)) as [Hcan|(n & m & _ & Hm & Hrec)].
    + by_computation.
    + intros (n & Hn & Hk). revert Hn Hk. vm_compute.
      intros Hn. repeat (apply elem_of_cons in Hn as [->|Hn]; [done|]).
      by apply elem_of_nil in Hn.
    + exfalso. clear -Hrun Hcan. vm_compute in Hrun. inversion Hrun; subst.
      simpl in Hcan. by apply elem_of_nil in Hcan.
    + by exists n, m.
Defined.

(** ** What the entries of a comparison are *)

(** X2: every entry of [moved_talks] is built from a scheduled slot of the
    predecessor and a scheduled slot of the schedule that belong to the
    same submission and differ in room or in start: a move is never
    reported for a placement that stayed. *)
Theorem moves_change_placement st schedule previous :
  previous_schedule st schedule = Some previous →
  ∃ changes,
    compare_schedule_with_predecessor st schedule = Ok changes
    ∧ ∀ m, m ∈ moved_talks changes →
        ∃ o n,
          o ∈ scheduled_talks st previous ∧ n ∈ scheduled_talks st schedule
          ∧ submission_pk (submission o) = submission_pk (submission n)
          ∧ move_record (tz schedule) (o, n) = Ok m
          ∧ placement o ≠ placement n.
Proof.
  intros Hprev.
  destruct (compare_sound st schedule previous Hprev)
    as (changes & Hrun & _ & _ & _ & _ & Hmoved).
  exists changes. split; [exact Hrun|]. intros m Hm.
  eapply Forall_forall in Hmoved as (o & n & [Ho Hko] & [Hn Hkn] & Hsub & Hrec);
    [|exact Hm].
  exists o, n. repeat split; try done.
  intros Hp. apply Hko. apply elem_of_slot_set. exists n. split; [done|].
  unfold placement in Hp. unfold slot_key. inversion Hp. congruence.
Qed.

(** The move of submission 2 in the sample store goes from room 2 to
    room 3. *)
Lemma moves_change_placement_witness :
  ∃ changes,
    compare_schedule_with_predecessor sample_store sample_draft = Ok changes
    ∧ ∀ m, m ∈ moved_talks changes →
        ∃ o n, move_record "UTC" (o, n) = Ok m ∧ placement o ≠ placement n.
Proof.
  destruct (moves_change_placement sample_store sample_draft sample_released)
    as (changes & Hrun & Hmoves); [by vm_compute|].
  exists changes. split; [exact Hrun|]. intros m Hm.
  destruct (Hmoves m Hm) as (o & n & _ & _ & _ & Hrec & Hne).
  by exists o, n.
Defined.

(** X3: the slots in [new_talks] are scheduled slots of the schedule, the
    slots in [canceled_talks] are scheduled slots of its predecessor, which
    is another schedule, so no slot is in both lists. *)
Theorem new_and_canceled_sides st schedule previous :
  previous_schedule st schedule = Some previous →
  ∃ changes,
    compare_schedule_with_predecessor st schedule = Ok changes
    ∧ pk previous ≠ pk schedule
    ∧ (∀ slot, slot ∈ new_talks changes →
         slot ∈ talks st ∧ schedule_id slot = pk schedule ∧ is_scheduled slot)
    ∧ (∀ slot, slot ∈ canceled_talks changes →
         slot ∈ talks st ∧ schedule_id slot = pk previous ∧ is_scheduled slot)
    ∧ (∀ slot, slot ∈ new_talks changes → slot ∉ canceled_talks changes).
Proof.
  intros Hprev.
  destruct (compare_sound st schedule previous Hprev)
    as (changes & Hrun & _ & _ & Hnew & Hcanceled & _).
  apply previous_schedule_candidate in Hprev as (_ & _ & Hpk).
  assert (Hn : ∀ slot, slot ∈ new_talks changes →
            slot ∈ talks st ∧ schedule_id slot = pk schedule
            ∧ is_scheduled slot).
  { intros slot Hin. eapply Forall_forall in Hnew as [Hs _]; [|exact Hin].
    unfold scheduled_talks, talks_of in Hs.
    apply list_elem_of_filter in Hs as [? Hs].
    by apply list_elem_of_filter in Hs as [? ?]. }
  assert (Hc : ∀ slot, slot ∈ canceled_talks changes →
            slot ∈ talks st ∧ schedule_id slot = pk previous
            ∧ is_scheduled slot).
  { intros slot Hin. eapply Forall_forall in Hcanceled as [Hs _]; [|exact Hin].
    unfold scheduled_talks, talks_of in Hs.
    apply list_elem_of_filter in Hs as [? Hs].
    by apply list_elem_of_filter in Hs as [? ?]. }
  exists changes. repeat split; try done; try (by apply Hn); try (by apply Hc).
  intros slot (_ & Hs1 & _)%Hn (_ & Hs2 & _)%Hc. congruence.
Qed.

Lemma new_and_canceled_sides_witness :
  ∃ changes,
    compare_schedule_with_predecessor sample_store sample_draft = Ok changes
    ∧ ∀ slot, slot ∈ new_talks changes → schedule_id slot = 2.
Proof.
  destruct (new_and_canceled_sides sample_store sample_draft sample_released)
    as (changes & Hrun & _ & Hnew & _); [by vm_compute|].
  exists changes. split; [exact Hrun|]. intros slot Hin.
  by destruct (Hnew slot Hin) as (_ & ? & _).
Defined.

(** X4: the comparison with a predecessor reports nothing, count 0, exactly
    when the two schedules have the same set of (submission, room, start)
    placements. *)
Theorem no_changes_iff_same_placements st schedule previous :
  previous_schedule st schedule = Some previous →
  ∃ changes,
    compare_schedule_with_predecessor st schedule = Ok changes
    ∧ (count changes = 0%nat
       ↔ slot_set (scheduled_talks st previous)
         = slot_set (scheduled_talks st schedule)).
Proof.
  intros Hprev.
  destruct (compare_covers st schedule previous Hprev)
    as (changes & Hrun & Hold & Hnew).
  destruct (compare_sound st schedule previous Hprev)
    as (changes' & Hrun' & _ & Hcount & _).
  rewrite Hrun in Hrun'. inversion Hrun'; subst changes'. clear Hrun'.
  exists changes. split; [exact Hrun|]. split.
  - intros Hzero.
    assert (Hn : new_talks changes = []) by (apply length_zero_iff_nil; lia).
    assert (Hc : canceled_talks changes = [])
      by (apply length_zero_iff_nil; lia).
    assert (Hm : moved_talks changes = []) by (apply length_zero_iff_nil; lia).
    rewrite Hn, Hc, Hm in *.
    apply set_eq. intros k. split.
    + intros Hk. destruct (decide (k ∈ slot_set (scheduled_talks st schedule)))
        as [?|Hnot]; [done|].
      apply elem_of_slot_set in Hk as (o & Ho & <-).
      destruct (Hold o Ho Hnot) as [?%elem_of_nil|(? & ? & _ & ?%elem_of_nil & _)];
        done.
    + intros Hk. destruct (decide (k ∈ slot_set (scheduled_talks st previous)))
        as [?|Hnot]; [done|].
      apply elem_of_slot_set in Hk as (n & Hn' & <-).
      destruct (Hnew n Hn' Hnot) as [?%elem_of_nil|(? & ? & _ & ?%elem_of_nil & _)];
        done.
  - intros Heq. unfold compare_schedule_with_predecessor in Hrun.
    rewrite Hprev in Hrun. rewrite Heq, difference_diag_L, elements_empty in Hrun.
    simpl in Hrun. by inversion Hrun.
Qed.

Lemma no_changes_iff_same_placements_witness :
  ∃ changes,
    compare_schedule_with_predecessor sample_store sample_draft = Ok changes
    ∧ count changes ≠ 0%nat.
Proof.
  destruct (no_changes_iff_same_placements sample_store sample_draft
              sample_released) as (changes & Hrun & Hiff); [by vm_compute|].
  exists changes. split; [exact Hrun|]. intros Hz. apply Hiff in Hz.
  by vm_compute in Hz.
Defined.

(** X5: move matching returns for slots that have a room and a start; it
    never reports both a new and a canceled slot for the submission, and
    it reports as many moves as the shorter of the two unmatched lists
    has slots. *)
Theorem move_matching_shape sub (old_slots new_slots : list TalkSlot) tz :
  Forall placed old_slots → Forall placed new_slots →
  ∃ new canceled moved,
    _handle_submission_move sub old_slots new_slots tz
      = Ok (new, canceled, moved)
    ∧ (new = [] ∨ canceled = [])
    ∧ length moved
      = (length (unmatched (filter_submission sub old_slots)
                           (filter_submission sub new_slots))
         `min` length (unmatched (filter_submission sub new_slots)
                                 (filter_submission sub old_slots)))%nat.
Proof.
  intros Hold Hnew.
  destruct (handle_submission_move_spec sub old_slots new_slots tz Hold Hnew)
    as (moved & Hrun & HF & Hlen).
  eexists _, _, moved. split; [exact Hrun|].
  apply Forall2_length in HF. rewrite length_zip_with in HF.
  rewrite !length_drop in *. split.
  - destruct (decide (Z.of_nat (length (unmatched
                (filter_submission sub old_slots)
                (filter_submission sub new_slots)))
              - Z.of_nat (length (unmatched
                  (filter_submission sub new_slots)
                  (filter_submission sub old_slots))) > 0)) as [Hd|Hd].
    + left. replace (Z.to_nat (- _)) with 0%nat by lia. apply take_0.
    + right. replace (Z.to_nat _) with 0%nat by lia. apply take_0.
  - lia.
Qed.

Lemma move_matching_shape_witness :
  ∃ new canceled moved,
    _handle_submission_move 4
      [sample_slot 1 1 4 1 9; sample_slot 2 1 4 1 14; sample_slot 3 1 4 2 16]
      [sample_slot 4 2 4 1 9; sample_slot 5 2 4 3 15] "UTC"
    = Ok (new, canceled, moved)
    ∧ (new = [] ∨ canceled = []) ∧ length moved = 1%nat.
Proof.
  destruct (move_matching_shape 4
    [sample_slot 1 1 4 1 9; sample_slot 2 1 4 1 14; sample_slot 3 1 4 2 16]
    [sample_slot 4 2 4 1 9; sample_slot 5 2 4 3 15] "UTC")
    as (new & canceled & moved & Hrun & Hone & Hlen);
    [by repeat constructor|by repeat constructor|].
  exists new, canceled, moved. split; [exact Hrun|]. split; [exact Hone|].
  rewrite Hlen. by vm_compute.
Defined.

(** ** The version in a URL *)

Lemma hex_digit_code (n : nat) :
  (n < 16)%nat →
  Ascii.nat_of_ascii (hex_digit n)
  = if (n <? 10)%nat then (48 + n)%nat else (55 + n)%nat.
Proof.
  intros Hn. unfold hex_digit.
  destruct (n <? 10)%nat; apply Ascii.nat_ascii_embedding; lia.
Qed.

Lemma hex_digit_inj (n m : nat) :
  (n < 16)%nat → (m < 16)%nat → hex_digit n = hex_digit m → n = m.
Proof.
  intros Hn Hm Heq. apply (f_equal Ascii.nat_of_ascii) in Heq.
  rewrite !hex_digit_code in Heq by done.
  destruct (n <? 10)%nat eqn:En, (m <? 10)%nat eqn:Em;
    try apply Nat.ltb_lt in En; try apply Nat.ltb_lt in Em;
    try apply Nat.ltb_ge in En; try apply Nat.ltb_ge in Em; lia.
Qed.

Lemma is_safe_not_percent tilde_safe (c : Ascii.ascii) :
  is_safe tilde_safe c = true → c ≠ Ascii.ascii_of_nat 37.
Proof. intros Hsafe ->. by destruct tilde_safe. Qed.

Lemma quote_byte_app_inj tilde_safe (a b : Ascii.ascii) (s t : string) :
  (quote_byte tilde_safe a ++ s = quote_byte tilde_safe b ++ t)%string →
  a = b ∧ s = t.
Proof.
  unfold quote_byte.
  destruct (is_safe tilde_safe a) eqn:Ha, (is_safe tilde_safe b) eqn:Hb;
    simpl; intros Heq; inversion Heq as [[Hc Hrest]].
  - done.
  - by apply is_safe_not_percent in Ha.
  - symmetry in Hc. by apply is_safe_not_percent in Hb.
  - split; [|done].
    pose proof (Ascii.nat_ascii_bounded a) as Hba.
    pose proof (Ascii.nat_ascii_bounded b) as Hbb.
    assert (Hhi : (Ascii.nat_of_ascii a / 16 = Ascii.nat_of_ascii b / 16)%nat).
    { apply hex_digit_inj; [| |done]; apply Nat.Div0.div_lt_upper_bound; lia. }
    assert (Hlo : (Ascii.nat_of_ascii a mod 16
                   = Ascii.nat_of_ascii b mod 16)%nat).
    { apply hex_digit_inj; [| |done]; apply Nat.mod_upper_bound; lia. }
    rewrite <- (Ascii.ascii_nat_embedding a), <- (Ascii.ascii_nat_embedding b).
    f_equal.
    rewrite (Nat.div_mod_eq (Ascii.nat_of_ascii a) 16),
      (Nat.div_mod_eq (Ascii.nat_of_ascii b) 16). lia.
Qed.

Lemma quote_byte_not_empty tilde_safe (c : Ascii.ascii) (s : string) :
  (quote_byte tilde_safe c ++ s)%string ≠ EmptyString.
Proof. unfold quote_byte. by destruct (is_safe tilde_safe c). Qed.

(** Quoting loses nothing: two strings with the same quoted form are the
    same string. *)
Lemma quote_inj tilde_safe (a b : string) :
  quote tilde_safe a = quote tilde_safe b → a = b.
Proof.
  revert b. induction a as [|c a IH]; intros [|d b]; simpl; intros Heq.
  - done.
  - symmetry in Heq. by apply quote_byte_not_empty in Heq.
  - by apply quote_byte_not_empty in Heq.
  - apply quote_byte_app_inj in Heq as [-> Heq]. f_equal. by apply IH.
Qed.

(** X6: two released schedules with the same [url_version] have the same
    version, and the [url_version] of a released schedule is not empty: the
    versions of an event, which are distinct, get distinct public
    addresses. *)
Theorem url_version_identifies_version tilde_safe (a b : Schedule) :
  truthy (version a) → truthy (version b) →
  (url_version tilde_safe a = url_version tilde_safe b → version a = version b)
  ∧ url_version tilde_safe a ≠ EmptyString.
Proof.
  intros Ha Hb. unfold url_version.
  rewrite !decide_True by done.
  destruct (version a) as [va|], (version b) as [vb|]; try done. simpl.
  split.
  - by intros ->%quote_inj.
  - destruct va as [|c va]; [done|]. simpl. apply quote_byte_not_empty.
Qed.

Lemma url_version_identifies_version_witness :
  (url_version true sample_released = url_version true sample_second →
   version sample_released = version sample_second)
  ∧ url_version true sample_released ≠ EmptyString.
Proof. by apply url_version_identifies_version. Defined.

(** ** Warnings before a release *)

Lemma warnings_fold has_warnings use_tracks has_track
    (talks' : list TalkSlot) (w : Warnings) :
  let w' := foldl (warnings_step has_warnings use_tracks has_track) w talks' in
  unscheduled w'
  = unscheduled w ++ filter (λ talk, start talk = None) talks'
  ∧ talk_warnings w'
    = talk_warnings w
      ++ filter (λ talk, start talk ≠ None ∧ has_warnings talk = true) talks'
  ∧ unconfirmed w'
    = unconfirmed w
      ++ filter (λ talk, state (submission talk) ≠ CONFIRMED) talks'
  ∧ no_track w'
    = no_track w
      ++ filter (λ talk, use_tracks (submission talk) = true
                         ∧ has_track (submission talk) = false) talks'.
Proof.
  revert w. induction talks' as [|talk talks' IH]; intros w; simpl.
  - by rewrite !app_nil_r.
  - destruct (IH (warnings_step has_warnings use_tracks has_track w talk))
      as (-> & -> & -> & ->).
    unfold warnings_step.
    destruct (decide (start talk = None)) as [Hs|Hs];
      destruct (has_warnings talk) eqn:Hw;
      destruct (decide (state (submission talk) ≠ CONFIRMED)) as [Hc|Hc];
      destruct (use_tracks (submission talk)) eqn:Hu;
      destruct (has_track (submission talk)) eqn:Ht; simpl;
      repeat (first [rewrite filter_cons_True by (intuition congruence)
                    |rewrite filter_cons_False by (intuition congruence)]);
      by rewrite <- ?app_assoc.
Qed.

(** X8: each list of [warnings] holds, in table order, the slots of the
    schedule that qualify: [unscheduled] those without a start,
    [talk_warnings] those with a start that have warnings, [unconfirmed]
    those whose submission is not confirmed, [no_track] those whose
    submission has no track in an event that uses tracks.  No slot is both
    in [unscheduled] and in [talk_warnings]. *)
Theorem warnings_lists has_warnings use_tracks has_track st self :
  let w := warnings has_warnings use_tracks has_track st self in
  unscheduled w = filter (λ talk, start talk = None) (talks_of st self)
  ∧ talk_warnings w
    = filter (λ talk, start talk ≠ None ∧ has_warnings talk = true)
             (talks_of st self)
  ∧ unconfirmed w
    = filter (λ talk, state (submission talk) ≠ CONFIRMED) (talks_of st self)
  ∧ no_track w
    = filter (λ talk, use_tracks (submission talk) = true
                      ∧ has_track (submission talk) = false)
             (talks_of st self)
  ∧ ∀ talk, talk ∈ unscheduled w → talk ∉ talk_warnings w.
Proof.
  intros w.
  destruct (warnings_fold has_warnings use_tracks has_track (talks_of st self)
              {| talk_warnings := []; unscheduled := [];
                 unconfirmed := []; no_track := [] |})
    as (Hu & Ht & Hc & Hn).
  simpl in Hu, Ht, Hc, Hn. fold (warnings has_warnings use_tracks has_track st self) in *.
  fold w in Hu, Ht, Hc, Hn.
  repeat split; try done.
  rewrite Hu, Ht. intros talk [Hs _]%list_elem_of_filter.
  by intros [[? _] _]%list_elem_of_filter.
Qed.

(** ** What unfreeze leaves alone *)

(** X10: unfreeze of a schedule whose version is [None] or the empty
    string raises [Exception] with the reason "not released yet" and leaves
    the store as it was. *)
Theorem unfreeze_rejected_unchanged st self user :
  ¬ truthy (version self) →
  unfreeze self user st
  = (Raise {| exc_class := Exception;
              exc_msg := "Cannot unfreeze schedule version: not released yet." |},
     st).
Proof.
  intros Hver. unfold unfreeze, atomic. by rewrite decide_True.
Qed.

Lemma unfreeze_rejected_unchanged_witness :
  (unfreeze sample_draft None sample_store).2 = sample_store
  ∧ raised_class (unfreeze sample_blank None sample_store_blank).1
    = Some Exception.
Proof.
  split.
  - rewrite unfreeze_rejected_unchanged; [done|]. by vm_compute.
  - rewrite unfreeze_rejected_unchanged; [done|]. by vm_compute.
Defined.

(** X12: an unfreeze changes nothing of a schedule other than the working
    draft it replaces: the rows of the other schedules stay, and so do
    their slots. *)
Theorem unfreeze_leaves_others st self user old_wip :
  truthy (version self) → store_wf st →
  wip_schedule (event self) st = (Ok old_wip, st) →
  ∃ new_wip st',
    unfreeze self user st = (Ok (self, new_wip), st')
    ∧ (∀ s, s ∈ schedules st → pk s ≠ pk old_wip → s ∈ schedules st')
    ∧ (∀ other, other ∈ schedules st → pk other ≠ pk old_wip →
         talks_of st' other = talks_of st other).
Proof.
  intros Hver (_ & Hspk & _) Hwip.
  destruct (unfreeze_run st self user old_wip Hver Hwip)
    as (st' & Hrun & Hschedules & Htalks & _).
  eexists _, st'. split; [exact Hrun|]. split.
  - intros s Hs Hpk. rewrite Hschedules. apply list_elem_of_filter.
    split; [done|]. apply elem_of_app. by left.
  - intros other Hother Hpk. unfold talks_of.
    rewrite Htalks, list_filter_filter, filter_app.
    rewrite (filter_none _ (assign_ids _ _)).
    + rewrite app_nil_r. apply list_filter_iff. intros slot.
      split; [tauto|]. intros Hs. split; [done|congruence].
    + apply Forall_forall. intros slot Hslot.
      apply (schedule_id_assign_ids _ _ (next_schedule_pk st)) in Hslot.
      * eapply Forall_forall in Hspk; [|exact Hother]. simpl in Hspk. lia.
      * apply Forall_forall. by intros obj (src & -> & _)%list_elem_of_fmap.
Qed.

Lemma unfreeze_leaves_others_witness :
  ∃ new_wip st',
    unfreeze sample_second None sample_store_two
    = (Ok (sample_second, new_wip), st')
    ∧ talks_of st' sample_released = talks_of sample_store_two sample_released.
Proof.
  destruct (unfreeze_leaves_others sample_store_two sample_second None
              sample_draft)
    as (new_wip & st' & Hrun & _ & Hothers);
    [by vm_compute|by_computation|by vm_compute|].
  exists new_wip, st'. split; [exact Hrun|].
  apply Hothers; [by_computation|done].
Defined.

(** ** Invariants of the version manager *)

Lemma only_draft_lookup st ev d :
  only_draft st ev d → wip_schedule ev st = (Ok d, st).
Proof.
  intros (Hin & Hv & He & Huniq). unfold wip_schedule, query.
  assert (Hd : d ∈ filter (λ s, version s = None) (schedules_of st ev)).
  { apply list_elem_of_filter. split; [done|].
    by apply list_elem_of_filter. }
  destruct (filter (λ s, version s = None) (schedules_of st ev))
    as [|s rest] eqn:E; [by apply elem_of_nil in Hd|].
  assert (Hs : s ∈ filter (λ s, version s = None) (schedules_of st ev))
    by (rewrite E; left).
  apply list_elem_of_filter in Hs as [Hsv Hs].
  apply list_elem_of_filter in Hs as [Hse Hs].
  by rewrite (Huniq s Hs Hse Hsv).
Qed.

(** X16: unfreezing a released version of an event with exactly one working
    draft keeps the store consistent in the same sense: the draft that was
    there is replaced by the new one, which is again the only draft of the
    event and the one the lookup returns. *)
Theorem unfreeze_keeps_store_consistent st self user old_wip :
  truthy (version self) →
  store_wf st → slots_attached st →
  only_draft st (event self) old_wip →
  ∃ new_wip st',
    unfreeze self user st = (Ok (self, new_wip), st')
    ∧ store_wf st' ∧ slots_attached st'
    ∧ only_draft st' (event self) new_wip
    ∧ wip_schedule (event self) st' = (Ok new_wip, st')
    ∧ old_wip ∉ schedules st'.
Proof.
  intros Hver Hwf Hatt Hdraft.
  pose proof (only_draft_lookup _ _ _ Hdraft) as Hwip.
  destruct Hdraft as (Hold & Hvold & _ & Huniq).
  destruct (unfreeze_run st self user old_wip Hver Hwip)
    as (st' & Hrun & Hschedules & Htalks & Hnext).
  destruct (unfreeze_keeps_wf st self user old_wip Hver Hwf Hwip)
    as (result & st'' & Hrun' & Hwf').
  rewrite Hrun in Hrun'. inversion Hrun' as [[Hresult Hst]].
  rewrite <- Hst in Hwf'. clear Hrun' Hresult Hst result st''.
  destruct Hwf as (Hnd & Hspk & Htpk).
  set (new_wip := {| pk := next_schedule_pk st; event := event self;
                     version := None; published := None |}) in *.
  assert (Hold_lt : pk old_wip < next_schedule_pk st)
    by (by eapply Forall_forall in Hspk).
  assert (Hnew_in : new_wip ∈ schedules st').
  { rewrite Hschedules. apply list_elem_of_filter. split; [simpl; lia|].
    apply elem_of_app. right. by apply list_elem_of_singleton. }
  assert (Hdraft : only_draft st' (event self) new_wip).
  { split; [done|]. split; [done|]. split; [done|].
    intros s Hs He Hvs. rewrite Hschedules in Hs.
    apply list_elem_of_filter in Hs as [Hpk Hs].
    apply elem_of_app in Hs as [Hs|Hs].
    - exfalso. apply Hpk. by rewrite (Huniq s Hs He Hvs).
    - by apply list_elem_of_singleton in Hs. }
  exists new_wip, st'. split; [exact Hrun|]. split; [exact Hwf'|].
  split; [|split; [exact Hdraft|split; [by apply only_draft_lookup|]]].
  - intros slot Hslot. rewrite Htalks in Hslot.
    apply list_elem_of_filter in Hslot as [Hne Hslot].
    apply elem_of_app in Hslot as [Hslot|Hslot].
    + destruct (Hatt slot Hslot) as (s & Hs & Hpk).
      exists s. split; [|done]. rewrite Hschedules.
      apply list_elem_of_filter. split; [congruence|].
      apply elem_of_app. by left.
    + exists new_wip. split; [done|]. symmetry.
      eapply schedule_id_assign_ids; [|exact Hslot].
      apply Forall_forall. by intros obj (src & -> & _)%list_elem_of_fmap.
  - rewrite Hschedules. by intros [Hpk _]%list_elem_of_filter.
Qed.

Lemma unfreeze_keeps_store_consistent_witness :
  ∃ new_wip st',
    unfreeze sample_released None sample_store
    = (Ok (sample_released, new_wip), st')
    ∧ store_wf st' ∧ slots_attached st'
    ∧ only_draft st' sample_event new_wip
    ∧ sample_draft ∉ schedules st'.
Proof.
  destruct (unfreeze_keeps_store_consistent sample_store sample_released None
              sample_draft)
    as (new_wip & st' & Hrun & Hwf & Hatt & Hdraft & _ & Hgone).
  - by vm_compute.
  - by_computation.
  - intros slot Hslot.
    assert (Hid : schedule_id slot ∈ pk <$> schedules sample_store).
    { revert slot Hslot. apply Forall_forall. by_computation. }
    apply list_elem_of_fmap in Hid as (s & Hpk & Hs). by exists s.
  - split; [by_computation|]. split; [done|]. split; [done|].
    intros s Hs _ Hv.
    apply elem_of_cons in Hs as [->|Hs]; [done|].
    by apply list_elem_of_singleton in Hs.
  - by exists new_wip, st'.
Defined.

(** ** A version name that is taken *)

(** X19: freezing an unversioned, stored schedule under a name that another
    schedule of its event carries fails on the uniqueness of
    (event, version) with [IntegrityError], and the transaction leaves the
    store as it was: no release is logged, no draft created, no visibility
    changed. *)
Theorem freeze_name_in_use_rolls_back st schedule name user notify :
  name ∉ ["wip"; "latest"] → name ≠ EmptyString →
  ¬ truthy (version schedule) →
  name_in_use st schedule name →
  ∃ msg,
    freeze_schedule schedule name user notify st
    = (Raise {| exc_class := IntegrityError; exc_msg := msg |}, st).
Proof.
  intros Hres Hname Hver (r & o & Hr & Ho & Hrpk & Hopk & Hev & Hov).
  unfold freeze_schedule, atomic.
  rewrite decide_False by done. rewrite decide_False by done.
  rewrite decide_False by done.
  rewrite bind_run. unfold now at 1, query at 1.
  rewrite bind_run. unfold save_published_version.
  set (frozen := {| pk := pk schedule; event := event schedule;
                    version := Some name; published := Some (clock st) |}).
  rewrite decide_True by (apply Exists_exists; by exists r).
  rewrite decide_True; [unfold raise; eauto|].
  apply Exists_exists. exists (updated_row frozen r). split.
  { apply list_elem_of_fmap. by exists r. }
  unfold updated_row at 1 2. rewrite decide_True by done. simpl.
  split; [done|]. apply Exists_exists. exists o. split.
  { apply list_elem_of_fmap. exists o. split; [|done].
    unfold updated_row. by rewrite decide_False. }
  unfold updated_row. rewrite decide_True by done. simpl.
  repeat split; try done; congruence.
Qed.

(** The draft of the sample store cannot be released as "v1", the name of
    the version released before. *)
Lemma freeze_name_in_use_rolls_back_witness :
  ∃ msg,
    freeze_schedule sample_draft "v1" 7 true sample_store
    = (Raise {| exc_class := IntegrityError; exc_msg := msg |}, sample_store).
Proof.
  apply freeze_name_in_use_rolls_back.
  - by_computation.
  - done.
  - by vm_compute.
  - exists sample_draft, sample_released. repeat split; try done; by_computation.
Defined.

(** ** What the missing names cost *)

(** X17: the notification builder never returns a dictionary.  For a first
    release it raises [NameError] on [User]; in every case it either
    returns the empty list or raises [NameError]. *)
Theorem speakers_never_a_dictionary st schedule :
  (previous_schedule st schedule = None →
   speakers_with_changed_slots st schedule
   = Raise {| exc_class := NameError;
              exc_msg := "name 'User' is not defined" |})
  ∧ (speakers_with_changed_slots st schedule = Ok EmptyList
     ∨ ∃ msg, speakers_with_changed_slots st schedule
              = Raise {| exc_class := NameError; exc_msg := msg |})
  ∧ (∀ entries,
       speakers_with_changed_slots st schedule ≠ Ok (SpeakersDict entries)).
Proof.
  assert (Hcreate : previous_schedule st schedule = None →
            speakers_with_changed_slots st schedule
            = Raise {| exc_class := NameError;
                       exc_msg := "name 'User' is not defined" |}).
  { intros Hprev.
    unfold speakers_with_changed_slots, compare_schedule_with_predecessor.
    by rewrite Hprev. }
  assert (Hcases : speakers_with_changed_slots st schedule = Ok EmptyList
            ∨ ∃ msg, speakers_with_changed_slots st schedule
                     = Raise {| exc_class := NameError; exc_msg := msg |}).
  { destruct (previous_schedule st schedule) as [previous|] eqn:Hprev.
    - destruct (compare_sound st schedule previous Hprev)
        as (changes & Hrun & Haction & _).
      unfold speakers_with_changed_slots. rewrite Hrun. simpl.
      rewrite decide_False by (rewrite Haction; discriminate).
      destruct (decide _); [by left|right; eauto].
    - right. rewrite Hcreate by done. eauto. }
  split; [exact Hcreate|]. split; [exact Hcases|].
  intros entries Heq. destruct Hcases as [Hlist|(msg & Hraise)]; congruence.
Qed.

(** The released version of the sample store is a first release. *)
Lemma speakers_never_a_dictionary_witness :
  speakers_with_changed_slots sample_store sample_released
  = Raise {| exc_class := NameError;
             exc_msg := "name 'User' is not defined" |}.
Proof.
  apply (speakers_never_a_dictionary sample_store sample_released).
  by vm_compute.
Defined.

(** X20: a call of [freeze_schedule] never returns and never changes the
    store.  Whatever the schedule, the name, the user and the flag, it
    raises and the store is what it was: [Exception] from one of the three
    checks, [DatabaseError] or [IntegrityError] from the save, and
    [NameError] once the save went through. *)
Theorem freeze_never_returns st schedule name user notify :
  ∃ e,
    freeze_schedule schedule name user notify st = (Raise e, st)
    ∧ exc_class e ∈ [Exception; DatabaseError; IntegrityError; NameError].
Proof.
  unfold freeze_schedule, atomic.
  destruct (decide (name ∈ ["wip"; "latest"])) as [Hres|Hres].
  { eexists. split; [reflexivity|]. by_computation. }
  destruct (decide (truthy (version schedule))) as [Hver|Hver].
  { eexists. split; [reflexivity|]. by_computation. }
  destruct (decide (name = EmptyString)) as [Hname|Hname].
  { eexists. split; [reflexivity|]. by_computation. }
  rewrite bind_run. unfold now at 1, query at 1.
  rewrite bind_run. unfold save_published_version.
  destruct (decide (Exists _ (schedules st))) as [Hstored|Hstored].
  - destruct (decide (Exists _ (_ <$> schedules st))) as [Hused|Hused].
    + eexists. split; [reflexivity|]. by_computation.
    + eexists. split; [reflexivity|]. by_computation.
  - eexists. split; [reflexivity|]. by_computation.
Qed.
